(** * The sweep phase of the non-moving collector (rts/sm/NonMovingSweep.c)

    A shallow embedding of the sweep phase: the segment scan
    [nonmoving_sweep_segment], the staging of the filled lists
    ([prepare_sweep]), the three push operations, the two debug scrubbers and
    the driver [nonmoving_sweep], followed by the properties established
    about them. *)

From Stdlib Require Import ZArith Lia.
From stdpp Require Import gmap list.

Local Open Scope nat_scope.

(** ** Outcomes of running RTS code *)

(** A C function of the RTS either returns, aborts the process ([ASSERT],
    [barf]), runs into behaviour the C language leaves undefined (a NULL or
    wild dereference, an access outside the segment, an index outside the
    allocator array), or is cut off by the fuel that bounds the model's
    pointer-chasing loops. *)
Inductive result (A : Type) : Type :=
| Ok (a : A)
| Fatal
| Undefined
| OutOfFuel.
Arguments Ok {A} a.
Arguments Fatal {A}.
Arguments Undefined {A}.
Arguments OutOfFuel {A}.

#[global] Instance result_ret : MRet result := @Ok.
#[global] Instance result_bind : MBind result := fun A B f m =>
  match m with
  | Ok a => f a
  | Fatal => Fatal
  | Undefined => Undefined
  | OutOfFuel => OutOfFuel
  end.

(** Modelled from the spec: the [ASSERT] macro of Rts.h, which is not part of
    the sources at hand.  Per the spec a violated assertion "fails fatally":
    an immediate abort-style failure with no continuation. *)
Definition ASSERT (b : bool) : result unit :=
  if b then Ok tt else Fatal.

(** ** Segments *)

(** Segments are referred to by address; a C pointer is [None] for NULL or
    [Some a]. *)
Abbreviation addr := nat (only parsing).

(** [struct nonmoving_segment].  [bitmap] is the flexible array member that
    ends the struct: it stands for all the bytes from [&seg->bitmap] to the
    end of the segment, so that [seg->bitmap[i]] is entry [i] of it and the
    blocks live further down the same array.  [block_size] is the size-class
    field ([seg->block_size - NONMOVING_ALLOCA0] indexes the allocators).
    Block indices ([nonmoving_block_idx]) are natural numbers: the number of
    blocks of a segment is bounded by the segment size. *)
Record nonmoving_segment : Type := mk_segment {
  link : option addr;
  next_free : nat;
  next_free_snap : nat;
  block_size : Z;
  bitmap : list Z
}.

Definition set_link (l : option addr) (seg : nonmoving_segment) :=
  {| link := l; next_free := next_free seg;
     next_free_snap := next_free_snap seg;
     block_size := block_size seg; bitmap := bitmap seg |}.

Definition set_next_free (i : nat) (seg : nonmoving_segment) :=
  {| link := link seg; next_free := i;
     next_free_snap := next_free_snap seg;
     block_size := block_size seg; bitmap := bitmap seg |}.

Definition set_next_free_snap (i : nat) (seg : nonmoving_segment) :=
  {| link := link seg; next_free := next_free seg;
     next_free_snap := i;
     block_size := block_size seg; bitmap := bitmap seg |}.

Definition set_bitmap (bm : list Z) (seg : nonmoving_segment) :=
  {| link := link seg; next_free := next_free seg;
     next_free_snap := next_free_snap seg;
     block_size := block_size seg; bitmap := bm |}.

(** [enum sweep_result] *)
Inductive sweep_result : Type :=
| SEGMENT_FREE
| SEGMENT_PARTIAL
| SEGMENT_FILLED.

(** How the scan loop of [nonmoving_sweep_segment] is left: through the
    [return] inside the loop body, or by running off the end with the two
    flags. *)
Inductive scan_exit : Type :=
| Returned (r : sweep_result)
| Completed (found_free found_live : bool).

(** [seg->bitmap[i]]: a read past the end of the segment is undefined. *)
Definition read_bitmap (seg : nonmoving_segment) (i : nat) : result Z :=
  match bitmap seg !! i with
  | Some b => Ok b
  | None => Undefined
  end.

(** [memset(p, 0, n)] where [p] points [off] bytes into the array [l]. *)
Definition memset0 (l : list Z) (off n : nat) : result (list Z) :=
  if decide (off + n <= length l)
  then Ok (take off l ++ replicate n 0%Z ++ drop (off + n) l)
  else Undefined.

(** ** The heap registry *)

(** [struct nonmoving_allocator] *)
Record nonmoving_allocator : Type := mk_allocator {
  filled : option addr;
  active : option addr
}.

(** [nonmoving_heap] together with the memory its pointers refer to:
    [segments] maps the address of every segment to its contents.  The
    allocator array holds pointers to allocators that are distinct objects;
    the model keeps the allocators themselves in the list. *)
Record nonmoving_heap : Type := mk_heap {
  allocators : list nonmoving_allocator;
  free : option addr;
  sweep_list : option addr;
  segments : gmap nat nonmoving_segment
}.

Definition set_allocators (al : list nonmoving_allocator) (h : nonmoving_heap) :=
  {| allocators := al; free := free h; sweep_list := sweep_list h;
     segments := segments h |}.

Definition set_free (p : option addr) (h : nonmoving_heap) :=
  {| allocators := allocators h; free := p; sweep_list := sweep_list h;
     segments := segments h |}.

Definition set_sweep_list (p : option addr) (h : nonmoving_heap) :=
  {| allocators := allocators h; free := free h; sweep_list := p;
     segments := segments h |}.

Definition set_segments (m : gmap nat nonmoving_segment) (h : nonmoving_heap) :=
  {| allocators := allocators h; free := free h; sweep_list := sweep_list h;
     segments := m |}.

(** [*seg] as an rvalue. *)
Definition deref (h : nonmoving_heap) (seg : addr) : result nonmoving_segment :=
  match segments h !! seg with
  | Some s => Ok s
  | None => Undefined
  end.

(** [*seg = s] *)
Definition store (seg : addr) (s : nonmoving_segment) (h : nonmoving_heap) :=
  set_segments (<[seg := s]> (segments h)) h.

(** [nonmoving_heap.allocators[idx]]; the array has one entry per size
    class and an index outside it is undefined. *)
Definition get_allocator (h : nonmoving_heap) (idx : Z) : result nonmoving_allocator :=
  if decide (0 <= idx)%Z
  then match allocators h !! Z.to_nat idx with
       | Some a => Ok a
       | None => Undefined
       end
  else Undefined.

Definition set_allocator (idx : Z) (a : nonmoving_allocator) (h : nonmoving_heap) :=
  set_allocators (<[Z.to_nat idx := a]> (allocators h)) h.

(** ** Lists threaded through the link field *)

(** [chain m p l]: following [link] from the pointer [p] in memory [m] visits
    exactly the addresses [l] and then reaches NULL. *)
Fixpoint chain (m : gmap nat nonmoving_segment) (p : option addr)
    (l : list addr) : Prop :=
  match l with
  | [] => p = None
  | a :: l' => p = Some a ∧ ∃ s, m !! a = Some s ∧ chain m (link s) l'
  end.

(** The segments on each list of the heap, in list order. *)
Record heap_lists : Type := mk_lists {
  l_sweep : list addr;
  l_free : list addr;
  l_active : list (list addr);
  l_filled : list (list addr)
}.

Definition all_segments (L : heap_lists) : list addr :=
  l_sweep L ++ l_free L ++ concat (l_active L) ++ concat (l_filled L).

(** The list bookkeeping of one [prepare_sweep] iteration. *)
Definition stage (idx : nat) (L : heap_lists) : heap_lists :=
  {| l_sweep := (l_filled L !!! idx) ++ l_sweep L;
     l_free := l_free L;
     l_active := l_active L;
     l_filled := <[idx := []]> (l_filled L) |}.

(** The lists once the first [idx] allocators have been staged: their
    filled lists are empty and sit on the sweep list, the later ones in
    front. *)
Definition staged (idx : nat) (L : heap_lists) : heap_lists :=
  {| l_sweep := concat (reverse (take idx (l_filled L))) ++ l_sweep L;
     l_free := l_free L;
     l_active := l_active L;
     l_filled := replicate idx [] ++ drop idx (l_filled L) |}.

(** The list bookkeeping of one iteration of the driver's loop: the head of
    the sweep list moves to the front of the list its verdict selects. *)
Definition refile (r : sweep_result) (c : nat) (a : addr) (L : heap_lists)
    : heap_lists :=
  match r with
  | SEGMENT_FREE =>
    {| l_sweep := tail (l_sweep L); l_free := a :: l_free L;
       l_active := l_active L; l_filled := l_filled L |}
  | SEGMENT_PARTIAL =>
    {| l_sweep := tail (l_sweep L); l_free := l_free L;
       l_active := <[c := a :: (l_active L !!! c)]> (l_active L);
       l_filled := l_filled L |}
  | SEGMENT_FILLED =>
    {| l_sweep := tail (l_sweep L); l_free := l_free L;
       l_active := l_active L;
       l_filled := <[c := a :: (l_filled L !!! c)]> (l_filled L) |}
  end.

(** The lists a segment can be on. *)
Inductive place : Type :=
| OnSweep
| OnFree
| OnActive (c : nat)
| OnFilled (c : nat).

Definition placed (L : heap_lists) (a : addr) (pl : place) : Prop :=
  match pl with
  | OnSweep => a ∈ l_sweep L
  | OnFree => a ∈ l_free L
  | OnActive c => ∃ l, l_active L !! c = Some l ∧ a ∈ l
  | OnFilled c => ∃ l, l_filled L !! c = Some l ∧ a ∈ l
  end.

(** The list a verdict sends a segment of size class [c] to. *)
Definition place_of (r : sweep_result) (c : nat) : place :=
  match r with
  | SEGMENT_FREE => OnFree
  | SEGMENT_PARTIAL => OnActive c
  | SEGMENT_FILLED => OnFilled c
  end.

(** [segments_related R m m']: the two memories hold segments at the same
    addresses, and each segment of [m'] is related by [R] to the one [m] has
    at its address. *)
Definition segments_related (R : nonmoving_segment → nonmoving_segment → Prop)
    (m m' : gmap nat nonmoving_segment) : Prop :=
  ∀ b, option_Forall2 R (m !! b) (m' !! b).

(** [s'] is [s] with another link, all else equal. *)
Definition relinked (s s' : nonmoving_segment) : Prop :=
  s' = set_link (link s') s.

#[global] Instance sweep_result_eq_dec : EqDecision sweep_result.
Proof. solve_decision. Defined.

(** ** A sample configuration

    Two size classes, 3 and 4, with four blocks of 8 bytes and two blocks of
    16 bytes; in both the blocks start 8 bytes past [&seg->bitmap] and the
    segment ends 40 bytes past it.  The heaps below are used to exercise the
    results on concrete inputs. *)

Definition sample_block_count (bs : Z) : nat :=
  match bs with 3%Z => 4 | 4%Z => 2 | _ => 0 end.

Definition sample_block_bytes (bs : Z) : nat :=
  match bs with 3%Z => 8 | 4%Z => 16 | _ => 0 end.

Definition sample_block_offset (bs : Z) (i : nat) : nat :=
  8 + i * sample_block_bytes bs.

Definition sample_segment (l : option addr) (nf snap : nat) (bs : Z)
    (marks : list Z) : nonmoving_segment :=
  {| link := l; next_free := nf; next_free_snap := snap; block_size := bs;
     bitmap := marks ++ replicate (8 - length marks) 0%Z
                     ++ replicate 32 7%Z |}.

Definition seg_dead : nonmoving_segment :=
  sample_segment (Some 2) 0 0 3 [0; 0; 0; 0]%Z.
Definition seg_mixed : nonmoving_segment :=
  sample_segment None 3 3 3 [1; 0; 1; 0]%Z.
Definition seg_full : nonmoving_segment :=
  sample_segment None 2 2 4 [1; 1]%Z.
Definition seg_active : nonmoving_segment :=
  sample_segment None 1 1 3 [1; 0; 0; 0]%Z.
Definition seg_spare : nonmoving_segment :=
  sample_segment None 0 0 3 [0; 0; 0; 0]%Z.

(** A heap after marking: segments 1 and 2 on the filled list of class 3,
    segment 3 on that of class 4, segment 4 active, segment 5 free. *)
Definition sample_heap : nonmoving_heap :=
  {| allocators := [ {| filled := Some 1; active := Some 4 |};
                     {| filled := Some 3; active := None |} ];
     free := Some 5;
     sweep_list := None;
     segments := <[1 := seg_dead]> (<[2 := seg_mixed]> (<[3 := seg_full]>
                   (<[4 := seg_active]> (<[5 := seg_spare]> ∅)))) |}.

Definition sample_lists : heap_lists :=
  {| l_sweep := []; l_free := [5]; l_active := [[4]; []];
     l_filled := [[1; 2]; [3]] |}.

(** The same heap once [prepare_sweep] has run: sweep list 3, 1, 2. *)
Definition sample_staged_heap : nonmoving_heap :=
  {| allocators := [ {| filled := None; active := Some 4 |};
                     {| filled := None; active := None |} ];
     free := Some 5;
     sweep_list := Some 3;
     segments := <[1 := seg_dead]> (<[2 := seg_mixed]>
                   (<[3 := set_link (Some 1) seg_full]>
                   (<[4 := seg_active]> (<[5 := seg_spare]> ∅)))) |}.

(** A heap whose sweep list was left non-empty by an unfinished pass. *)
Definition sample_unfinished_heap : nonmoving_heap :=
  set_sweep_list (Some 5) sample_heap.

(** A heap with nothing on any filled list. *)
Definition sample_idle_heap : nonmoving_heap :=
  {| allocators := [ {| filled := None; active := Some 4 |};
                     {| filled := None; active := None |} ];
     free := Some 5;
     sweep_list := None;
     segments := <[4 := seg_active]> (<[5 := seg_spare]> ∅) |}.

(** A heap whose first filled list runs in a circle: 1, 2, 1, ... *)
Definition sample_cyclic_heap : nonmoving_heap :=
  {| allocators := [ {| filled := Some 1; active := None |};
                     {| filled := None; active := None |} ];
     free := None;
     sweep_list := None;
     segments := <[1 := set_link (Some 2) seg_dead]>
                   (<[2 := set_link (Some 1) seg_mixed]> ∅) |}.

(** The sample heap with an allocator array that has no entry. *)
Definition sample_bare_heap : nonmoving_heap :=
  set_allocators [] sample_heap.

Section Sweep.

(** ** Configuration supplied by NonMoving.h and Rts.h

    The layout accessors and constants are declared outside this file; the
    sweep takes them as given.  All three accessors read only the size-class
    field of the segment, so they are functions of it. *)

(** First size class (log2 of the smallest block size). *)
Variable NONMOVING_ALLOCA0 : Z.
(** Number of size classes, the length of [nonmoving_heap.allocators]. *)
Variable NONMOVING_ALLOCA_CNT : nat.
(** Number of blocks of a segment of the given size class. *)
Variable block_count : Z -> nat.
(** Bytes per block of the given size class. *)
Variable block_bytes : Z -> nat.
(** Offset, counted from [&seg->bitmap], of block [i] of a segment of the
    given size class. *)
Variable block_offset : Z -> nat -> nat.
(** Whether [IF_DEBUG(sanity, ...)] runs its statement: the diagnostics
    build of the spec.  In a release build it is [false]. *)
Variable DEBUG_sanity : bool.

Definition nonmoving_segment_block_count (seg : nonmoving_segment) : nat :=
  block_count (block_size seg).

Definition nonmoving_segment_block_size (seg : nonmoving_segment) : nat :=
  block_bytes (block_size seg).

Definition nonmoving_segment_get_block (seg : nonmoving_segment) (i : nat) : nat :=
  block_offset (block_size seg) i.

(** Modelled from the spec: [nonmoving_get_mark_bit] of NonMoving.h, the
    mark entry of block [i], "one mark byte per block index; nonzero = live". *)
Definition nonmoving_get_mark_bit (seg : nonmoving_segment) (i : nat) : result Z :=
  read_bitmap seg i.

(** ** Segment classification *)

(** The [for] loop of [nonmoving_sweep_segment].  [n] is the number of
    iterations left, [block_count - i]; the bound does not change during the
    loop since the body leaves [block_size] alone. *)
Fixpoint scan_blocks (n i : nat) (found_free found_live : bool)
    (seg : nonmoving_segment) : result (scan_exit * nonmoving_segment) :=
  match n with
  | 0 => Ok (Completed found_free found_live, seg)
  | S n' =>
    b ← read_bitmap seg i;
    let '(found_free, found_live, seg) :=
      if negb (b =? 0)%Z then (found_free, true, seg)
      else if negb found_free
           then (true, found_live, set_next_free_snap i (set_next_free i seg))
           else (found_free, found_live, seg) in
    if found_free && found_live
    then Ok (Returned SEGMENT_PARTIAL, seg)
    else scan_blocks n' (S i) found_free found_live seg
  end.

Definition nonmoving_sweep_segment (seg : nonmoving_segment)
    : result (sweep_result * nonmoving_segment) :=
  '(e, seg) ← scan_blocks (nonmoving_segment_block_count seg) 0 false false seg;
  match e with
  | Returned r => Ok (r, seg)
  | Completed _ found_live =>
    if found_live then Ok (SEGMENT_FILLED, seg)
    else
      _ ← ASSERT (next_free seg =? 0);
      _ ← ASSERT (next_free_snap seg =? 0);
      Ok (SEGMENT_FREE, seg)
  end.

(** Reference classification, written after the spec's description of the
    scan without its early exit: every block index is visited in ascending
    order, the first unset entry is recorded in both cursors, and the verdict
    is read off the two flags once the scan is over. *)
Fixpoint reference_scan (n i : nat) (found_free found_live : bool)
    (seg : nonmoving_segment) : result (bool * bool * nonmoving_segment) :=
  match n with
  | 0 => Ok (found_free, found_live, seg)
  | S n' =>
    b ← read_bitmap seg i;
    let '(found_free, found_live, seg) :=
      if negb (b =? 0)%Z then (found_free, true, seg)
      else if negb found_free
           then (true, found_live, set_next_free_snap i (set_next_free i seg))
           else (found_free, found_live, seg) in
    reference_scan n' (S i) found_free found_live seg
  end.

Definition reference_sweep_segment (seg : nonmoving_segment)
    : result (sweep_result * nonmoving_segment) :=
  '(found_free, found_live, seg) ←
    reference_scan (nonmoving_segment_block_count seg) 0 false false seg;
  if found_free && found_live then Ok (SEGMENT_PARTIAL, seg)
  else if found_live then Ok (SEGMENT_FILLED, seg)
  else
    _ ← ASSERT (next_free seg =? 0);
    _ ← ASSERT (next_free_snap seg =? 0);
    Ok (SEGMENT_FREE, seg).

(** ** Staging the filled lists *)

(** The [while (filled->link)] walk of [prepare_sweep]: the address of the
    last segment of the list that starts at [filled]. *)
Fixpoint last_segment (fuel : nat) (h : nonmoving_heap) (filled : addr)
    : result addr :=
  match fuel with
  | 0 => OutOfFuel
  | S fuel =>
    s ← deref h filled;
    match link s with
    | Some next => last_segment fuel h next
    | None => Ok filled
    end
  end.

(** One iteration of the [for] loop of [prepare_sweep]. *)
Definition prepare_sweep_allocator (fuel alloc_idx : nat) (h : nonmoving_heap)
    : result nonmoving_heap :=
  alloc ← get_allocator h (Z.of_nat alloc_idx);
  let filled_head := filled alloc in
  let h := set_allocator (Z.of_nat alloc_idx)
             {| filled := None; active := active alloc |} h in
  match filled_head with
  | None => Ok h
  | Some filled_head =>
    last ← last_segment fuel h filled_head;
    s ← deref h last;
    let h := store last (set_link (sweep_list h) s) h in
    Ok (set_sweep_list (Some filled_head) h)
  end.

(** The [for] loop itself; [n] iterations are left, the next one is for
    [alloc_idx]. *)
Fixpoint prepare_sweep_loop (fuel n alloc_idx : nat) (h : nonmoving_heap)
    : result nonmoving_heap :=
  match n with
  | 0 => Ok h
  | S n' =>
    h ← prepare_sweep_allocator fuel alloc_idx h;
    prepare_sweep_loop fuel n' (S alloc_idx) h
  end.

Definition prepare_sweep (fuel : nat) (h : nonmoving_heap)
    : result nonmoving_heap :=
  _ ← ASSERT (bool_decide (sweep_list h = None));
  prepare_sweep_loop fuel NONMOVING_ALLOCA_CNT 0 h.

(** ** Re-filing *)

Definition push_free_segment (seg : addr) (h : nonmoving_heap)
    : result nonmoving_heap :=
  s ← deref h seg;
  let h := store seg (set_link (free h) s) h in
  Ok (set_free (Some seg) h).

Definition push_active_segment (seg : addr) (h : nonmoving_heap)
    : result nonmoving_heap :=
  s ← deref h seg;
  let idx := (block_size s - NONMOVING_ALLOCA0)%Z in
  alloc ← get_allocator h idx;
  let h := store seg (set_link (active alloc) s) h in
  Ok (set_allocator idx {| filled := filled alloc; active := Some seg |} h).

Definition push_filled_segment (seg : addr) (h : nonmoving_heap)
    : result nonmoving_heap :=
  s ← deref h seg;
  let idx := (block_size s - NONMOVING_ALLOCA0)%Z in
  alloc ← get_allocator h idx;
  let h := store seg (set_link (filled alloc) s) h in
  Ok (set_allocator idx {| filled := Some seg; active := active alloc |} h).

(** ** Debug scrubbing *)

(** [clear_segment]: the [memset] starts at [&seg->bitmap] and runs to the
    end of the segment. *)
Definition clear_segment (seg : nonmoving_segment) : result nonmoving_segment :=
  bm ← memset0 (bitmap seg) 0 (length (bitmap seg));
  Ok (set_bitmap bm seg).

(** The loop of [clear_segment_free_blocks]; the mark entry is read from the
    segment as the earlier iterations left it. *)
Fixpoint clear_free_blocks_loop (n p_idx blk_size : nat)
    (seg : nonmoving_segment) : result nonmoving_segment :=
  match n with
  | 0 => Ok seg
  | S n' =>
    bit ← nonmoving_get_mark_bit seg p_idx;
    seg ← (if (bit =? 0)%Z
           then bm ← memset0 (bitmap seg)
                      (nonmoving_segment_get_block seg p_idx) blk_size;
                Ok (set_bitmap bm seg)
           else Ok seg);
    clear_free_blocks_loop n' (S p_idx) blk_size seg
  end.

Definition clear_segment_free_blocks (seg : nonmoving_segment)
    : result nonmoving_segment :=
  clear_free_blocks_loop (nonmoving_segment_block_count seg) 0
    (nonmoving_segment_block_size seg) seg.

(** A function that works on [*seg] in place, called on the pointer. *)
Definition in_place (f : nonmoving_segment -> result nonmoving_segment)
    (seg : addr) (h : nonmoving_heap) : result nonmoving_heap :=
  s ← deref h seg;
  s ← f s;
  Ok (store seg s h).

(** [IF_DEBUG(sanity, stmt)] *)
Definition IF_DEBUG_sanity (stmt : nonmoving_heap -> result nonmoving_heap)
    (h : nonmoving_heap) : result nonmoving_heap :=
  if DEBUG_sanity then stmt h else Ok h.

(** ** The driver *)

(** The body of the [while] loop of [nonmoving_sweep] for the segment at the
    head of the sweep list.  The [default: barf] arm of the [switch] has no
    counterpart: [sweep_result] has the three constructors only. *)
Definition sweep_step (seg : addr) (h : nonmoving_heap)
    : result nonmoving_heap :=
  s ← deref h seg;
  let h := set_sweep_list (link s) h in
  '(ret, s) ← nonmoving_sweep_segment s;
  let h := store seg s h in
  match ret with
  | SEGMENT_FREE =>
    h ← push_free_segment seg h;
    IF_DEBUG_sanity (in_place clear_segment seg) h
  | SEGMENT_PARTIAL =>
    h ← push_active_segment seg h;
    IF_DEBUG_sanity (in_place clear_segment_free_blocks seg) h
  | SEGMENT_FILLED =>
    push_filled_segment seg h
  end.

Fixpoint sweep_loop (fuel : nat) (h : nonmoving_heap) : result nonmoving_heap :=
  match sweep_list h with
  | None => Ok h
  | Some seg =>
    match fuel with
    | 0 => OutOfFuel
    | S fuel =>
      h ← sweep_step seg h;
      sweep_loop fuel h
    end
  end.

(** [nonmoving_sweep].  The fuel bounds the two loops that follow pointers
    (the walk to the end of a filled list and the loop over the sweep list),
    which need not end on a cyclic list. *)
Definition nonmoving_sweep (fuel : nat) (h : nonmoving_heap)
    : result nonmoving_heap :=
  h ← prepare_sweep fuel h;
  sweep_loop fuel h.

(** ** Vocabulary of the specification *)

(** Block [i] is live: its bitmap entry is there and nonzero. *)
Definition marked (seg : nonmoving_segment) (i : nat) : Prop :=
  ∃ b, bitmap seg !! i = Some b ∧ b ≠ 0%Z.

(** Block [i] is dead: its bitmap entry is zero. *)
Definition unmarked (seg : nonmoving_segment) (i : nat) : Prop :=
  bitmap seg !! i = Some 0%Z.

(** The segment holds a bitmap entry for each of its blocks. *)
Definition bitmap_in_segment (seg : nonmoving_segment) : Prop :=
  nonmoving_segment_block_count seg ≤ length (bitmap seg).

(** The precondition behind the two assertions of the FREE arm: a segment
    without any block comes with both cursors at zero. *)
Definition cursors_clear (seg : nonmoving_segment) : Prop :=
  0 < nonmoving_segment_block_count seg ∨
  (next_free seg = 0 ∧ next_free_snap seg = 0).

(** Assigning [i] to both cursors, as the scan does at the first dead block. *)
Definition set_cursors (i : nat) (seg : nonmoving_segment) : nonmoving_segment :=
  set_next_free_snap i (set_next_free i seg).

(** The bytes of block [i]. *)
Definition block_contents (seg : nonmoving_segment) (i : nat) : list Z :=
  take (nonmoving_segment_block_size seg)
       (drop (nonmoving_segment_get_block seg i) (bitmap seg)).

(** What the layout accessors promise about a segment: the blocks lie
    inside the segment, behind the bitmap, and do not overlap. *)
Definition blocks_in_segment (seg : nonmoving_segment) : Prop :=
  ∀ i, i < nonmoving_segment_block_count seg →
    nonmoving_segment_block_count seg ≤ nonmoving_segment_get_block seg i ∧
    nonmoving_segment_get_block seg i + nonmoving_segment_block_size seg
      ≤ length (bitmap seg).

Definition blocks_disjoint (seg : nonmoving_segment) : Prop :=
  ∀ i j, i < nonmoving_segment_block_count seg →
    j < nonmoving_segment_block_count seg → i ≠ j →
    nonmoving_segment_get_block seg i + nonmoving_segment_block_size seg
      ≤ nonmoving_segment_get_block seg j ∨
    nonmoving_segment_get_block seg j + nonmoving_segment_block_size seg
      ≤ nonmoving_segment_get_block seg i.

Definition segment_layout (seg : nonmoving_segment) : Prop :=
  bitmap_in_segment seg ∧ blocks_in_segment seg ∧ blocks_disjoint seg.

(** The size class of a segment names one of the allocators. *)
Definition class_in_range (seg : nonmoving_segment) : Prop :=
  (0 ≤ block_size seg - NONMOVING_ALLOCA0 < Z.of_nat NONMOVING_ALLOCA_CNT)%Z.

(** The allocator index the push operations compute for a segment. *)
Definition class_of (seg : nonmoving_segment) : nat :=
  Z.to_nat (block_size seg - NONMOVING_ALLOCA0).

(** A segment the driver can process without leaving defined behaviour. *)
Definition sweepable (seg : nonmoving_segment) : Prop :=
  segment_layout seg ∧ class_in_range seg ∧ cursors_clear seg.

(** The scrubbing that follows the push of a segment classified [r]. *)
Definition scrub (r : sweep_result) (seg : nonmoving_segment)
    : result nonmoving_segment :=
  match r with
  | SEGMENT_FREE => if DEBUG_sanity then clear_segment seg else Ok seg
  | SEGMENT_PARTIAL =>
    if DEBUG_sanity then clear_segment_free_blocks seg else Ok seg
  | SEGMENT_FILLED => Ok seg
  end.

(** What the scrubbing of a verdict does to the bytes of a well laid out
    segment. *)
Definition scrubbed (r : sweep_result) (seg seg' : nonmoving_segment) : Prop :=
  match r with
  | SEGMENT_FREE =>
    bitmap seg' = if DEBUG_sanity
                  then replicate (length (bitmap seg)) 0%Z else bitmap seg
  | SEGMENT_PARTIAL =>
    if DEBUG_sanity
    then (∀ i, i < nonmoving_segment_block_count seg → unmarked seg i →
            block_contents seg' i =
              replicate (nonmoving_segment_block_size seg) 0%Z) ∧
         (∀ i, i < nonmoving_segment_block_count seg → marked seg i →
            block_contents seg' i = block_contents seg i) ∧
         (∀ i, i < nonmoving_segment_block_count seg →
            bitmap seg' !! i = bitmap seg !! i)
    else bitmap seg' = bitmap seg
  | SEGMENT_FILLED => bitmap seg' = bitmap seg
  end.

(** ** Well-formed heaps *)

(** [represents h L]: the heap is well formed and its lists are the ones
    recorded in [L].  Every list ends in NULL, there is one allocator per size
    class, and no segment is on two lists or twice on one. *)
Definition represents (h : nonmoving_heap) (L : heap_lists) : Prop :=
  chain (segments h) (sweep_list h) (l_sweep L) ∧
  chain (segments h) (free h) (l_free L) ∧
  Forall2 (λ a l, chain (segments h) (active a) l) (allocators h) (l_active L) ∧
  Forall2 (λ a l, chain (segments h) (filled a) l) (allocators h) (l_filled L) ∧
  length (allocators h) = NONMOVING_ALLOCA_CNT ∧
  NoDup (all_segments L).

(** A run of the driver's loop, with the segments it pops in order. *)
Inductive sweep_run : nonmoving_heap → list addr → nonmoving_heap → Prop :=
| sweep_run_done h :
    sweep_list h = None → sweep_run h [] h
| sweep_run_pop h seg h' l h'' :
    sweep_list h = Some seg →
    sweep_step seg h = Ok h' →
    sweep_run h' l h'' →
    sweep_run h (seg :: l) h''.

(** What no part of the sweep changes in a segment: its size class and its
    size, and outside a diagnostics build every byte of it. *)
Definition kept (s s' : nonmoving_segment) : Prop :=
  block_size s' = block_size s ∧
  length (bitmap s') = length (bitmap s) ∧
  (DEBUG_sanity = false → bitmap s' = bitmap s).

Definition heap_kept (h h' : nonmoving_heap) : Prop :=
  segments_related kept (segments h) (segments h') ∧
  length (allocators h') = length (allocators h).

(** The verdict the scan gives the segment at address [a], if there is a
    segment and the scan returns. *)
Definition verdict_at (h : nonmoving_heap) (a : addr) : option sweep_result :=
  match segments h !! a with
  | Some s =>
    match nonmoving_sweep_segment s with
    | Ok (r, _) => Some r
    | _ => None
    end
  | None => None
  end.

(** The allocator index of the segment at address [a]. *)
Definition class_at (h : nonmoving_heap) (a : addr) : option nat :=
  class_of <$> segments h !! a.

(** ** Classification *)

Lemma marked_unmarked seg i : marked seg i → unmarked seg i → False.
Proof. intros (b & Hb & Hnz) Hu. unfold unmarked in Hu. congruence. Qed.

Lemma read_bitmap_cases seg i b :
  read_bitmap seg i = Ok b →
  (b = 0%Z ∧ unmarked seg i) ∨ (b ≠ 0%Z ∧ marked seg i).
Proof.
  unfold read_bitmap, unmarked, marked. destruct (bitmap seg !! i) as [b'|] eqn:E;
    [|discriminate].
  intros [= ->]. destruct (decide (b = 0%Z)) as [->|Hnz]; [left|right]; eauto.
Qed.

Lemma read_bitmap_in_range seg i :
  i < length (bitmap seg) → ∃ b, read_bitmap seg i = Ok b.
Proof.
  intros Hi. unfold read_bitmap.
  destruct (lookup_lt_is_Some_2 (bitmap seg) i Hi) as [b ->]. eauto.
Qed.

Lemma bind_Ok {A B} (m : result A) (k : A → result B) b :
  (m ≫= k) = Ok b → ∃ a, m = Ok a ∧ k a = Ok b.
Proof. destruct m; simpl; try discriminate. eauto. Qed.

(** The scan once a live block has been seen and no dead one. *)
Lemma scan_blocks_live n : ∀ i seg e seg',
  scan_blocks n i false true seg = Ok (e, seg') →
  (e = Completed false true ∧ seg' = seg ∧
     ∀ j, i ≤ j < i + n → marked seg j) ∨
  (e = Returned SEGMENT_PARTIAL ∧
     ∃ k, i ≤ k < i + n ∧ unmarked seg k ∧
          (∀ j, i ≤ j < k → marked seg j) ∧ seg' = set_cursors k seg).
Proof.
  induction n as [|n IH]; intros i seg e seg' H; simpl in H.
  - injection H as <- <-. left. split_and!; [done..|]. intros j Hj. lia.
  - apply bind_Ok in H as (b & Hb & H).
    destruct (read_bitmap_cases _ _ _ Hb) as [[-> Hu]|[Hnz Hm]].
    + simpl in H. injection H as <- <-. right. split; [done|].
      exists i. split_and!; [lia..|done| |done]. intros j Hj. lia.
    + apply Z.eqb_neq in Hnz. rewrite Hnz in H. simpl in H.
      apply IH in H as [(-> & -> & Hall)|(-> & k & Hk & Hu & Hlow & ->)].
      * left. split_and!; [done..|]. intros j Hj.
        destruct (decide (j = i)) as [->|]; [done|]. apply Hall. lia.
      * right. split; [done|]. exists k. split_and!; [lia..|done| |done].
        intros j Hj. destruct (decide (j = i)) as [->|]; [done|].
        apply Hlow. lia.
Qed.

(** The scan once a dead block has been seen and no live one: the cursors
    stay as they are. *)
Lemma scan_blocks_free n : ∀ i seg e seg',
  scan_blocks n i true false seg = Ok (e, seg') →
  seg' = seg ∧
  ((e = Completed true false ∧ ∀ j, i ≤ j < i + n → unmarked seg j) ∨
   (e = Returned SEGMENT_PARTIAL ∧
      ∃ k, i ≤ k < i + n ∧ marked seg k ∧ ∀ j, i ≤ j < k → unmarked seg j)).
Proof.
  induction n as [|n IH]; intros i seg e seg' H; simpl in H.
  - injection H as <- <-. split; [done|]. left. split; [done|]. intros j Hj. lia.
  - apply bind_Ok in H as (b & Hb & H).
    destruct (read_bitmap_cases _ _ _ Hb) as [[-> Hu]|[Hnz Hm]].
    + simpl in H.
      apply IH in H as [-> [(-> & Hall)|(-> & k & Hk & Hm & Hlow)]];
        (split; [done|]).
      * left. split; [done|]. intros j Hj.
        destruct (decide (j = i)) as [->|]; [done|]. apply Hall. lia.
      * right. split; [done|]. exists k. split_and!; [lia..|done|].
        intros j Hj. destruct (decide (j = i)) as [->|]; [done|].
        apply Hlow. lia.
    + apply Z.eqb_neq in Hnz. rewrite Hnz in H. simpl in H.
      injection H as <- <-. split; [done|]. right. split; [done|].
      exists i. split_and!; [lia..|done|]. intros j Hj. lia.
Qed.

(** Within the bitmap the scan always comes to an end. *)
Lemma scan_blocks_total n : ∀ i ff fl seg,
  i + n ≤ length (bitmap seg) →
  ∃ e seg', scan_blocks n i ff fl seg = Ok (e, seg').
Proof.
  induction n as [|n IH]; intros i ff fl seg Hlen; simpl; [eauto|].
  destruct (read_bitmap_in_range seg i) as [b ->]; [lia|]. simpl.
  destruct (negb (b =? 0)%Z), ff, fl; simpl; eauto; apply IH; simpl; lia.
Qed.

(** What a returned verdict says about the bitmap and the cursors. *)
Lemma sweep_segment_cases seg r seg' :
  nonmoving_sweep_segment seg = Ok (r, seg') →
  (r = SEGMENT_FREE ∧
     (∀ j, j < nonmoving_segment_block_count seg → unmarked seg j) ∧
     next_free seg' = 0 ∧ next_free_snap seg' = 0 ∧
     seg' = (if decide (nonmoving_segment_block_count seg = 0)
             then seg else set_cursors 0 seg)) ∨
  (r = SEGMENT_FILLED ∧ 0 < nonmoving_segment_block_count seg ∧
     (∀ j, j < nonmoving_segment_block_count seg → marked seg j) ∧
     seg' = seg) ∨
  (r = SEGMENT_PARTIAL ∧
     ∃ k m, k < nonmoving_segment_block_count seg ∧
            m < nonmoving_segment_block_count seg ∧
            unmarked seg k ∧ marked seg m ∧
            (∀ j, j < k → marked seg j) ∧ seg' = set_cursors k seg).
Proof.
  unfold nonmoving_sweep_segment.
  destruct (nonmoving_segment_block_count seg) as [|n] eqn:Hc; simpl.
  - destruct (next_free seg =? 0) eqn:E1; simpl; [|discriminate].
    destruct (next_free_snap seg =? 0) eqn:E2; simpl; [|discriminate].
    intros [= <- <-]. left. apply Nat.eqb_eq in E1, E2.
    split_and!; [done| |done..]. intros j Hj. lia.
  - intros H. apply bind_Ok in H as ([e s1] & H & Hret).
    apply bind_Ok in H as (b & Hb & H).
    destruct (read_bitmap_cases _ _ _ Hb) as [[-> Hu]|[Hnz Hm]].
    + simpl in H. apply scan_blocks_free in H
        as [-> [(-> & Hall)|(-> & k & Hk & Hmk & Hlow)]]; simpl in Hret.
      * injection Hret as <- <-. left. split_and!; [done| |done..].
        intros j Hj. destruct (decide (j = 0)) as [->|]; [done|].
        apply (Hall j). lia.
      * injection Hret as <- <-. right. right. split; [done|].
        exists 0, k. split_and!; [lia..|done|done| |done]. intros j Hj. lia.
    + apply Z.eqb_neq in Hnz. rewrite Hnz in H. simpl in H.
      apply scan_blocks_live in H
        as [(-> & -> & Hall)|(-> & k & Hk & Hu & Hlow & ->)]; simpl in Hret.
      * injection Hret as <- <-. right. left. split_and!; [done|lia| |done].
        intros j Hj. destruct (decide (j = 0)) as [->|]; [done|].
        apply Hall. lia.
      * injection Hret as <- <-. right. right. split; [done|].
        exists k, 0. split_and!; [lia..|done|done| |done].
        intros j Hj. destruct (decide (j = 0)) as [->|]; [done|].
        apply Hlow. lia.
Qed.

(** A segment whose bitmap is in place and whose cursors meet the
    precondition of the FREE arm gets a verdict. *)
Lemma sweep_segment_total seg :
  bitmap_in_segment seg → cursors_clear seg →
  ∃ r seg', nonmoving_sweep_segment seg = Ok (r, seg').
Proof.
  unfold bitmap_in_segment, cursors_clear, nonmoving_sweep_segment.
  intros Hlen Hcur.
  destruct (scan_blocks_total (nonmoving_segment_block_count seg) 0
              false false seg) as (e & s1 & Hscan); [lia|].
  rewrite Hscan. simpl. destruct e as [r|ff [|]]; simpl; [eauto..|].
  destruct (nonmoving_segment_block_count seg) as [|n] eqn:Hc.
  - simpl in Hscan. injection Hscan as _ <-.
    destruct Hcur as [?|[-> ->]]; [lia|]. simpl. eauto.
  - simpl in Hscan. apply bind_Ok in Hscan as (b & Hb & H).
    destruct (read_bitmap_cases _ _ _ Hb) as [[-> Hu]|[Hnz Hm]].
    + simpl in H. apply scan_blocks_free in H as [-> _]. simpl. eauto.
    + apply Z.eqb_neq in Hnz. rewrite Hnz in H. simpl in H.
      apply scan_blocks_live in H as [(? & _)|(? & _)]; discriminate.
Qed.

(** C1. Classification correctness: for a segment whose bitmap covers its
    blocks, [nonmoving_sweep_segment] answers [SEGMENT_FREE] exactly when no
    bitmap entry is set, [SEGMENT_FILLED] exactly when there is a block and
    every entry is set, and [SEGMENT_PARTIAL] exactly when some entry is set
    and some entry is not.  [cursors_clear] keeps the two assertions of the
    FREE arm from aborting on a segment that has no block at all. *)
Theorem sweep_segment_classification seg :
  bitmap_in_segment seg → cursors_clear seg →
  ∃ r seg', nonmoving_sweep_segment seg = Ok (r, seg') ∧
    (r = SEGMENT_FREE ↔
       ∀ i, i < nonmoving_segment_block_count seg → unmarked seg i) ∧
    (r = SEGMENT_FILLED ↔
       0 < nonmoving_segment_block_count seg ∧
       ∀ i, i < nonmoving_segment_block_count seg → marked seg i) ∧
    (r = SEGMENT_PARTIAL ↔
       (∃ i, i < nonmoving_segment_block_count seg ∧ marked seg i) ∧
       (∃ j, j < nonmoving_segment_block_count seg ∧ unmarked seg j)).
Proof.
  intros Hlen Hcur.
  destruct (sweep_segment_total seg Hlen Hcur) as (r & seg' & Hrun).
  exists r, seg'. split; [done|].
  destruct (sweep_segment_cases _ _ _ Hrun)
    as [(-> & Hall & _)|[(-> & Hpos & Hall & _)
       |(-> & k & m & Hk & Hm & Hu & Hmk & _)]].
  - split_and!; split; try done.
    + intros [Hpos Hall']. destruct (marked_unmarked seg 0); auto.
    + intros [(i & Hi & Hmi) _]. destruct (marked_unmarked seg i); auto.
  - split_and!; split; try done.
    + intros Hall'. destruct (marked_unmarked seg 0); auto.
    + intros [_ (j & Hj & Huj)]. destruct (marked_unmarked seg j); auto.
  - split_and!; split; try done.
    + intros Hall. destruct (marked_unmarked seg m); auto.
    + intros [_ Hall]. destruct (marked_unmarked seg k); auto.
    + intros _. split; eauto.
Qed.

(** C2. Cursor correctness: when [nonmoving_sweep_segment] answers
    [SEGMENT_PARTIAL], [next_free] is the lowest block index whose bitmap
    entry is unset and [next_free_snap] equals it; when it answers
    [SEGMENT_FILLED], both cursors (indeed the whole segment) are as they were
    before the scan. *)
Theorem sweep_segment_cursors seg r seg' :
  nonmoving_sweep_segment seg = Ok (r, seg') →
  (r = SEGMENT_PARTIAL →
     next_free seg' < nonmoving_segment_block_count seg ∧
     unmarked seg (next_free seg') ∧
     (∀ j, unmarked seg j → next_free seg' ≤ j) ∧
     next_free_snap seg' = next_free seg') ∧
  (r = SEGMENT_FILLED →
     next_free seg' = next_free seg ∧
     next_free_snap seg' = next_free_snap seg ∧ seg' = seg).
Proof.
  intros Hrun.
  destruct (sweep_segment_cases _ _ _ Hrun)
    as [(-> & _)|[(-> & _ & _ & ->)
       |(-> & k & m & Hk & _ & Hu & _ & Hlow & ->)]].
  - split; discriminate.
  - split; [discriminate|done].
  - split; [|discriminate]. intros _. simpl. split_and!; [done..| |done].
    intros j Hj. destruct (decide (k ≤ j)) as [|Hlt]; [done|].
    destruct (marked_unmarked seg j); [apply Hlow; lia|done].
Qed.

Lemma sweep_segment_free_cursors seg seg' :
  nonmoving_sweep_segment seg = Ok (SEGMENT_FREE, seg') →
  next_free seg' = 0 ∧ next_free_snap seg' = 0.
Proof.
  intros Hrun.
  destruct (sweep_segment_cases _ _ _ Hrun)
    as [(_ & _ & ? & ? & _)|[(? & _)|(? & _)]]; done.
Qed.

(** C6. Zero-cursor invariant: for a segment none of whose bitmap entries is
    set and whose cursors are both zero before the scan, the two assertions of
    the FREE arm hold (the scan returns [SEGMENT_FREE] rather than abort), both
    cursors are zero afterwards, and the segment is as it was. *)
Theorem free_segment_cursors seg :
  bitmap_in_segment seg →
  (∀ i, i < nonmoving_segment_block_count seg → unmarked seg i) →
  next_free seg = 0 → next_free_snap seg = 0 →
  ∃ seg', nonmoving_sweep_segment seg = Ok (SEGMENT_FREE, seg') ∧
          next_free seg' = 0 ∧ next_free_snap seg' = 0 ∧ seg' = seg.
Proof.
  intros Hlen Hall Hnf Hsnap.
  destruct (sweep_segment_total seg Hlen) as (r & seg' & Hrun).
  { right. done. }
  destruct (sweep_segment_cases _ _ _ Hrun)
    as [(-> & _ & Hnf' & Hsnap' & ->)|[(-> & Hpos & Hm & _)
       |(-> & k & m & _ & Hm & _ & Hmk & _)]].
  - eexists. split; [done|]. split_and!; [done..|].
    case_decide; [done|]. destruct seg; simpl in *; subst; done.
  - destruct (marked_unmarked seg 0); auto.
  - destruct (marked_unmarked seg m); auto.
Qed.

(** ** The early exit against a full scan *)

Lemma reference_scan_decided n : ∀ i seg,
  i + n ≤ length (bitmap seg) →
  reference_scan n i true true seg = Ok (true, true, seg).
Proof.
  induction n as [|n IH]; intros i seg Hlen; simpl; [done|].
  destruct (read_bitmap_in_range seg i) as [b ->]; [lia|]. simpl.
  destruct (negb (b =? 0)%Z); simpl; apply IH; lia.
Qed.

Lemma scan_blocks_reference n : ∀ i ff fl seg,
  i + n ≤ length (bitmap seg) → ff && fl = false →
  ∃ ff' fl' seg',
    reference_scan n i ff fl seg = Ok (ff', fl', seg') ∧
    scan_blocks n i ff fl seg =
      Ok (if ff' && fl' then Returned SEGMENT_PARTIAL else Completed ff' fl',
          seg').
Proof.
  induction n as [|n IH]; intros i ff fl seg Hlen Hfl; simpl.
  - exists ff, fl, seg. by rewrite Hfl.
  - destruct (read_bitmap_in_range seg i) as [b ->]; [lia|]. simpl.
    destruct (negb (b =? 0)%Z), ff, fl; simpl; try discriminate;
      try (apply IH; [simpl; lia|done]);
      (rewrite reference_scan_decided by (simpl; lia));
      by eexists true, true, _.
Qed.

(** C9. The early exit is a pure optimisation: on a segment whose bitmap
    covers its blocks, [nonmoving_sweep_segment] gives the same outcome, with
    the same verdict and the same final cursors, as the reference
    classification that visits every block index. *)
Theorem early_exit_refines_full_scan seg :
  bitmap_in_segment seg →
  nonmoving_sweep_segment seg = reference_sweep_segment seg.
Proof.
  unfold bitmap_in_segment, nonmoving_sweep_segment, reference_sweep_segment.
  intros Hlen.
  destruct (scan_blocks_reference (nonmoving_segment_block_count seg) 0
              false false seg) as (ff & fl & s1 & -> & ->); [lia|done|].
  by destruct ff, fl.
Qed.

(** ** Scrubbing *)

Lemma memset0_lookup l off n l' p :
  memset0 l off n = Ok l' →
  l' !! p = if decide (off ≤ p < off + n) then Some 0%Z else l !! p.
Proof.
  unfold memset0. case_decide as Hlen; [|discriminate]. intros [= <-].
  destruct (decide (p < off)) as [Hlt|Hge].
  - rewrite lookup_app_l by (rewrite length_take_le; lia).
    rewrite lookup_take_lt by done. case_decide; [lia|done].
  - rewrite lookup_app_r by (rewrite length_take_le; lia).
    rewrite length_take_le by lia.
    destruct (decide (p < off + n)) as [Hin|Hout].
    + rewrite lookup_app_l by (rewrite length_replicate; lia).
      rewrite lookup_replicate_2 by lia. case_decide; [done|lia].
    + rewrite lookup_app_r by (rewrite length_replicate; lia).
      rewrite length_replicate, lookup_drop. case_decide; [lia|].
      f_equal. lia.
Qed.

Lemma memset0_length l off n l' :
  memset0 l off n = Ok l' → length l' = length l.
Proof.
  unfold memset0. case_decide as Hlen; [|discriminate]. intros [= <-].
  rewrite !length_app, length_take_le, length_replicate, length_drop; lia.
Qed.

Lemma memset0_in_range l off n :
  off + n ≤ length l → ∃ l', memset0 l off n = Ok l'.
Proof. intros Hlen. unfold memset0. case_decide; [eauto|lia]. Qed.

(** [clear_segment] always succeeds and leaves nothing but zeros from the
    bitmap on. *)
Lemma clear_segment_zeroes seg :
  clear_segment seg =
    Ok (set_bitmap (replicate (length (bitmap seg)) 0%Z) seg).
Proof.
  unfold clear_segment, memset0. simpl. case_decide; [|lia]. simpl.
  by rewrite drop_all, app_nil_r.
Qed.

(** Byte [p] of the segment belongs to block [i]. *)
Lemma block_contents_lookup seg i k :
  k < nonmoving_segment_block_size seg →
  block_contents seg i !! k =
    bitmap seg !! (nonmoving_segment_get_block seg i + k).
Proof.
  intros Hk. unfold block_contents.
  by rewrite lookup_take_lt, lookup_drop.
Qed.

(** The loop of [clear_segment_free_blocks] from index [p_idx] on: it
    succeeds, touches only the bytes past the bitmap, zeroes the bytes of the
    dead blocks it visits and leaves every other byte alone. *)
Lemma clear_free_blocks_loop_spec n : ∀ p_idx seg,
  p_idx + n = nonmoving_segment_block_count seg →
  segment_layout seg →
  ∃ seg', clear_free_blocks_loop n p_idx
            (nonmoving_segment_block_size seg) seg = Ok seg' ∧
    link seg' = link seg ∧ next_free seg' = next_free seg ∧
    next_free_snap seg' = next_free_snap seg ∧
    block_size seg' = block_size seg ∧
    length (bitmap seg') = length (bitmap seg) ∧
    (∀ p i, p_idx ≤ i < nonmoving_segment_block_count seg →
       unmarked seg i →
       nonmoving_segment_get_block seg i ≤ p
         < nonmoving_segment_get_block seg i + nonmoving_segment_block_size seg →
       bitmap seg' !! p = Some 0%Z) ∧
    (∀ p, (∀ i, p_idx ≤ i < nonmoving_segment_block_count seg →
             unmarked seg i →
             ¬ (nonmoving_segment_get_block seg i ≤ p
                  < nonmoving_segment_get_block seg i
                    + nonmoving_segment_block_size seg)) →
       bitmap seg' !! p = bitmap seg !! p).
Proof.
  induction n as [|n IH]; intros p_idx seg Hn Hlay; simpl.
  - exists seg. split_and!; [done..| |done]. intros p i Hi. lia.
  - destruct Hlay as (Hbm & Hin & Hdis).
    destruct (read_bitmap_in_range seg p_idx) as [b Hb];
      [unfold bitmap_in_segment in Hbm; lia|].
    unfold nonmoving_get_mark_bit. rewrite Hb. simpl.
    destruct (read_bitmap_cases _ _ _ Hb) as [[-> Hu]|[Hnz Hm]].
    + simpl. destruct (Hin p_idx) as [Hpast Hfit]; [lia|].
      destruct (memset0_in_range (bitmap seg)
                  (nonmoving_segment_get_block seg p_idx)
                  (nonmoving_segment_block_size seg)) as [bm Hset]; [done|].
      rewrite Hset. simpl.
      pose proof (memset0_length _ _ _ _ Hset) as Hlen.
      pose proof (λ p, memset0_lookup _ _ _ _ p Hset) as Hlook.
      destruct (IH (S p_idx) (set_bitmap bm seg))
        as (seg' & Hrun & Hl & Hnf & Hsn & Hbs & Hlen' & Hzero & Hkeep).
      { simpl. unfold nonmoving_segment_block_count in *. simpl. lia. }
      { unfold segment_layout, bitmap_in_segment, blocks_in_segment,
          blocks_disjoint, nonmoving_segment_block_count,
          nonmoving_segment_block_size, nonmoving_segment_get_block in *.
        simpl. rewrite Hlen. done. }
      assert (Hsame : ∀ i, i < nonmoving_segment_block_count seg →
                unmarked (set_bitmap bm seg) i ↔ unmarked seg i).
      { intros i Hi. unfold unmarked. simpl. rewrite Hlook.
        case_decide; [lia|done]. }
      exists seg'. split; [exact Hrun|].
      unfold blocks_disjoint, nonmoving_segment_block_count,
        nonmoving_segment_block_size, nonmoving_segment_get_block in *.
      simpl in *. split_and!; [done..|lia| |].
      * intros p i Hi Hui Hp.
        destruct (decide (i = p_idx)) as [->|Hne].
        -- rewrite Hkeep, Hlook.
           ++ case_decide; [done|lia].
           ++ intros j Hj Huj Hpj. destruct (Hdis p_idx j); lia.
        -- apply (Hzero p i); [lia| |done]. apply Hsame; [lia|done].
      * intros p Hp. rewrite Hkeep, Hlook.
        -- case_decide as Hc; [|done]. destruct (Hp p_idx); [lia|done|done].
        -- intros j Hj Huj Hpj. apply (Hp j); [lia| |done].
           apply Hsame; [lia|done].
    + apply Z.eqb_neq in Hnz. rewrite Hnz. simpl.
      destruct (IH (S p_idx) seg)
        as (seg' & Hrun & Hl & Hnf & Hsn & Hbs & Hlen' & Hzero & Hkeep);
        [lia|done|].
      exists seg'. split_and!; [done..| |].
      * intros p i Hi Hui Hp. apply (Hzero p i); [|done..].
        destruct (decide (i = p_idx)) as [->|]; [|lia].
        destruct (marked_unmarked seg p_idx); done.
      * intros p Hp. apply Hkeep. intros i Hi. apply Hp. lia.
Qed.

Lemma segment_layout_ext s s' :
  block_size s' = block_size s → length (bitmap s') = length (bitmap s) →
  segment_layout s → segment_layout s'.
Proof.
  unfold segment_layout, bitmap_in_segment, blocks_in_segment,
    blocks_disjoint, nonmoving_segment_block_count,
    nonmoving_segment_block_size, nonmoving_segment_get_block.
  by intros -> ->.
Qed.

(** The scan leaves everything but the cursors alone. *)
Lemma sweep_segment_frame seg r seg' :
  nonmoving_sweep_segment seg = Ok (r, seg') →
  link seg' = link seg ∧ block_size seg' = block_size seg ∧
  bitmap seg' = bitmap seg.
Proof.
  intros Hrun.
  destruct (sweep_segment_cases _ _ _ Hrun)
    as [(_ & _ & _ & _ & ->)|[(_ & _ & _ & ->)
       |(_ & k & m & _ & _ & _ & _ & _ & ->)]]; [|done..].
  by case_decide.
Qed.

(** The verdict does not depend on the link field. *)
Lemma sweep_segment_set_link p seg r seg' :
  nonmoving_sweep_segment seg = Ok (r, seg') →
  nonmoving_sweep_segment (set_link p seg) = Ok (r, set_link p seg').
Proof.
  unfold nonmoving_sweep_segment, nonmoving_segment_block_count. simpl.
  assert (Hscan : ∀ n i ff fl s e s',
    scan_blocks n i ff fl s = Ok (e, s') →
    scan_blocks n i ff fl (set_link p s) = Ok (e, set_link p s')).
  { induction n as [|n IH]; intros i ff fl s e s' H; simpl in *.
    - by injection H as <- <-.
    - unfold read_bitmap in *. simpl.
      destruct (bitmap s !! i) as [b|]; [|done]. simpl in *.
      destruct (negb (b =? 0)%Z), ff, fl; simpl in *;
        first [by injection H as <- <- | by apply IH in H]. }
  intros H. apply bind_Ok in H as ([e s1] & H & Hret).
  rewrite (Hscan _ _ _ _ _ _ _ H). simpl.
  destruct e as [r'|ff [|]]; simpl in *; [by injection Hret as <- <-..|].
  destruct (next_free s1 =? 0); [|done]. simpl in *.
  destruct (next_free_snap s1 =? 0); [|done]. simpl in *.
  by injection Hret as <- <-.
Qed.

(** The scrubbing succeeds on a well laid out segment and keeps the header
    and the size of the segment. *)
Lemma scrub_ok r seg :
  (r = SEGMENT_PARTIAL → DEBUG_sanity = true → segment_layout seg) →
  ∃ seg', scrub r seg = Ok seg' ∧
    link seg' = link seg ∧ next_free seg' = next_free seg ∧
    next_free_snap seg' = next_free_snap seg ∧
    block_size seg' = block_size seg ∧
    length (bitmap seg') = length (bitmap seg).
Proof.
  intros Hlay. unfold scrub. destruct r, DEBUG_sanity; eauto 10.
  - rewrite clear_segment_zeroes. eexists. split; [done|]. simpl.
    by rewrite length_replicate.
  - destruct (clear_free_blocks_loop_spec
                (nonmoving_segment_block_count seg) 0 seg)
      as (seg' & Hrun & ? & ? & ? & ? & ? & _); [done|by apply Hlay|].
    exists seg'. by split.
Qed.

(** ** One iteration of the driver's loop *)

Lemma sweep_step_free h a s s1 s2 :
  segments h !! a = Some s →
  nonmoving_sweep_segment s = Ok (SEGMENT_FREE, s1) →
  scrub SEGMENT_FREE (set_link (free h) s1) = Ok s2 →
  sweep_step a h =
    Ok {| allocators := allocators h; free := Some a; sweep_list := link s;
          segments := <[a := s2]> (segments h) |}.
Proof.
  intros Hs Hcls Hscrub. unfold sweep_step, deref. rewrite Hs. simpl.
  rewrite Hcls. simpl. unfold push_free_segment, deref, store. simpl.
  rewrite lookup_insert_eq. simpl. unfold IF_DEBUG_sanity, scrub in *.
  destruct DEBUG_sanity.
  - unfold in_place, deref, store. simpl. rewrite lookup_insert_eq. simpl.
    rewrite Hscrub. simpl. unfold set_segments. simpl.
    by rewrite !insert_insert_eq.
  - injection Hscrub as <-. unfold set_free, set_segments. simpl.
    by rewrite !insert_insert_eq.
Qed.

Lemma get_allocator_class h s alloc :
  class_in_range s → allocators h !! class_of s = Some alloc →
  get_allocator h (block_size s - NONMOVING_ALLOCA0) = Ok alloc.
Proof.
  unfold class_in_range, class_of, get_allocator. intros Hr Ha.
  case_decide; [|lia]. by rewrite Ha.
Qed.

Lemma sweep_step_partial h a s s1 s2 alloc :
  segments h !! a = Some s →
  nonmoving_sweep_segment s = Ok (SEGMENT_PARTIAL, s1) →
  class_in_range s → allocators h !! class_of s = Some alloc →
  scrub SEGMENT_PARTIAL (set_link (active alloc) s1) = Ok s2 →
  sweep_step a h =
    Ok {| allocators := <[class_of s :=
                           {| filled := filled alloc; active := Some a |}]>
                          (allocators h);
          free := free h; sweep_list := link s;
          segments := <[a := s2]> (segments h) |}.
Proof.
  intros Hs Hcls Hr Ha Hscrub. unfold sweep_step, deref. rewrite Hs. simpl.
  rewrite Hcls. simpl.
  destruct (sweep_segment_frame _ _ _ Hcls) as (_ & Hbs & _).
  unfold push_active_segment, deref, store. simpl.
  rewrite lookup_insert_eq. simpl. rewrite Hbs.
  rewrite (get_allocator_class _ s alloc) by done. simpl.
  fold (class_of s). unfold IF_DEBUG_sanity, scrub in *.
  destruct DEBUG_sanity.
  - unfold in_place, deref, store. simpl. rewrite lookup_insert_eq. simpl.
    rewrite Hscrub. simpl. unfold set_segments, set_allocator. simpl.
    by rewrite !insert_insert_eq.
  - injection Hscrub as <-. unfold set_allocator, set_allocators. simpl.
    by rewrite !insert_insert_eq.
Qed.

Lemma sweep_step_filled h a s s1 alloc :
  segments h !! a = Some s →
  nonmoving_sweep_segment s = Ok (SEGMENT_FILLED, s1) →
  class_in_range s → allocators h !! class_of s = Some alloc →
  sweep_step a h =
    Ok {| allocators := <[class_of s :=
                           {| filled := Some a; active := active alloc |}]>
                          (allocators h);
          free := free h; sweep_list := link s;
          segments := <[a := set_link (filled alloc) s1]> (segments h) |}.
Proof.
  intros Hs Hcls Hr Ha. unfold sweep_step, deref. rewrite Hs. simpl.
  rewrite Hcls. simpl.
  destruct (sweep_segment_frame _ _ _ Hcls) as (_ & Hbs & _).
  unfold push_filled_segment, deref, store. simpl.
  rewrite lookup_insert_eq. simpl. rewrite Hbs.
  rewrite (get_allocator_class _ s alloc) by done. simpl.
  fold (class_of s). unfold set_allocator, set_allocators. simpl.
  by rewrite !insert_insert_eq.
Qed.

(** What [clear_segment_free_blocks] does to a well laid out segment, block
    by block. *)
Lemma clear_segment_free_blocks_spec seg :
  segment_layout seg →
  ∃ seg', clear_segment_free_blocks seg = Ok seg' ∧
    link seg' = link seg ∧ next_free seg' = next_free seg ∧
    next_free_snap seg' = next_free_snap seg ∧
    block_size seg' = block_size seg ∧
    (∀ i, i < nonmoving_segment_block_count seg →
       bitmap seg' !! i = bitmap seg !! i) ∧
    (∀ i, i < nonmoving_segment_block_count seg → unmarked seg i →
       block_contents seg' i =
         replicate (nonmoving_segment_block_size seg) 0%Z) ∧
    (∀ i, i < nonmoving_segment_block_count seg → marked seg i →
       block_contents seg' i = block_contents seg i).
Proof.
  intros Hlay.
  destruct (clear_free_blocks_loop_spec
              (nonmoving_segment_block_count seg) 0 seg)
    as (seg' & Hrun & Hl & Hnf & Hsn & Hbs & Hlen & Hzero & Hkeep);
    [done..|].
  destruct Hlay as (Hbm & Hin & Hdis).
  exists seg'. split; [exact Hrun|]. split_and!; [done..| | |].
  - intros i Hi. apply Hkeep. intros j Hj _ Hp.
    destruct (Hin j) as [Hpast _]; [lia|]. lia.
  - intros i Hi Hu. apply list_eq. intros k. unfold block_contents.
    unfold nonmoving_segment_block_size, nonmoving_segment_get_block.
    rewrite Hbs. fold (nonmoving_segment_block_size seg).
    fold (nonmoving_segment_get_block seg i).
    destruct (decide (k < nonmoving_segment_block_size seg)) as [Hk|Hk].
    + rewrite lookup_take_lt, lookup_drop, lookup_replicate_2 by done.
      apply (Hzero _ i); [lia|done|lia].
    + rewrite lookup_take_ge by lia. symmetry.
      apply lookup_replicate_None. lia.
  - intros i Hi Hm. apply list_eq. intros k. unfold block_contents.
    unfold nonmoving_segment_block_size, nonmoving_segment_get_block.
    rewrite Hbs. fold (nonmoving_segment_block_size seg).
    fold (nonmoving_segment_get_block seg i).
    destruct (decide (k < nonmoving_segment_block_size seg)) as [Hk|Hk].
    + rewrite !lookup_take_lt, !lookup_drop by done.
      apply Hkeep. intros j Hj Hu Hp.
      destruct (decide (i = j)) as [->|Hne];
        [by destruct (marked_unmarked seg j)|].
      destruct (Hdis i j); [lia|lia|done|lia|lia].
    + by rewrite !lookup_take_ge by lia.
Qed.

Lemma sweep_step_ok h a s :
  segments h !! a = Some s → sweepable s →
  length (allocators h) = NONMOVING_ALLOCA_CNT →
  ∃ r s1 s2 h',
    nonmoving_sweep_segment s = Ok (r, s1) ∧
    sweep_step a h = Ok h' ∧
    scrub r (set_link (link s2) s1) = Ok s2 ∧
    segments h' = <[a := s2]> (segments h) ∧
    sweep_list h' = link s ∧
    match r with
    | SEGMENT_FREE =>
      free h' = Some a ∧ link s2 = free h ∧ allocators h' = allocators h
    | SEGMENT_PARTIAL =>
      free h' = free h ∧
      ∃ alloc, allocators h !! class_of s = Some alloc ∧
        link s2 = active alloc ∧
        allocators h' =
          <[class_of s := {| filled := filled alloc; active := Some a |}]>
            (allocators h)
    | SEGMENT_FILLED =>
      free h' = free h ∧
      ∃ alloc, allocators h !! class_of s = Some alloc ∧
        link s2 = filled alloc ∧
        allocators h' =
          <[class_of s := {| filled := Some a; active := active alloc |}]>
            (allocators h)
    end.
Proof.
  intros Hs (Hlay & Hr & Hcur) Hcnt.
  destruct (sweep_segment_total s) as (r & s1 & Hcls); [apply Hlay|done|].
  destruct (sweep_segment_frame _ _ _ Hcls) as (Hl1 & Hbs1 & Hbm1).
  destruct (lookup_lt_is_Some_2 (allocators h) (class_of s)) as [alloc Ha].
  { unfold class_of, class_in_range in *. lia. }
  set (dest := match r with
               | SEGMENT_FREE => free h
               | SEGMENT_PARTIAL => active alloc
               | SEGMENT_FILLED => filled alloc
               end).
  destruct (scrub_ok r (set_link dest s1))
    as (s2 & Hscrub & Hl2 & Hnf2 & Hsn2 & Hbs2 & Hlen2).
  { intros _ _. apply (segment_layout_ext s); simpl; [done|by rewrite Hbm1|done]. }
  simpl in Hl2. exists r, s1, s2.
  destruct r; subst dest.
  - eexists. split; [done|]. split; [by eapply sweep_step_free|].
    rewrite Hl2. by split_and!.
  - eexists. split; [done|]. split; [by eapply sweep_step_partial|].
    rewrite Hl2. split_and!; [done..|]. simpl. eauto.
  - simpl in Hscrub. injection Hscrub as <-.
    eexists. split; [done|]. split; [by eapply sweep_step_filled|].
    split_and!; [done..|]. simpl. eauto.
Qed.

(** C7. Scrubbing a free segment: when the segment at the head of the sweep
    list is classified [SEGMENT_FREE], one iteration of the driver leaves
    every byte of it from the bitmap on at zero in a diagnostics build, the
    bitmap entries (already zero) and the cursors being what the scan left;
    in a release build no byte of the segment changes.  Other segments are
    not touched either way. *)
Theorem free_segment_scrub h a s s1 :
  segments h !! a = Some s →
  nonmoving_sweep_segment s = Ok (SEGMENT_FREE, s1) →
  ∃ h' s', sweep_step a h = Ok h' ∧ segments h' !! a = Some s' ∧
    bitmap s' = (if DEBUG_sanity
                 then replicate (length (bitmap s)) 0%Z else bitmap s) ∧
    (∀ i, i < nonmoving_segment_block_count s →
       bitmap s' !! i = bitmap s !! i) ∧
    link s' = free h ∧ next_free s' = next_free s1 ∧
    next_free_snap s' = next_free_snap s1 ∧ block_size s' = block_size s ∧
    (∀ b, b ≠ a → segments h' !! b = segments h !! b).
Proof.
  intros Hs Hcls.
  destruct (sweep_segment_frame _ _ _ Hcls) as (Hl1 & Hbs1 & Hbm1).
  destruct (scrub_ok SEGMENT_FREE (set_link (free h) s1))
    as (s2 & Hscrub & Hl2 & Hnf2 & Hsn2 & Hbs2 & Hlen2); [done|].
  simpl in *. eexists _, s2. split; [by eapply sweep_step_free|]. simpl.
  rewrite lookup_insert_eq. split; [done|].
  assert (Hbytes : bitmap s2 = if DEBUG_sanity
            then replicate (length (bitmap s)) 0%Z else bitmap s).
  { destruct DEBUG_sanity.
    - rewrite clear_segment_zeroes in Hscrub. injection Hscrub as <-.
      simpl. by rewrite Hbm1.
    - injection Hscrub as <-. done. }
  split_and!; [done| |congruence..|].
  - intros i Hi. rewrite Hbytes. destruct DEBUG_sanity; [|done].
    destruct (sweep_segment_cases _ _ _ Hcls)
      as [(_ & Hall & _)|[(? & _)|(? & _)]]; [|done..].
    rewrite (Hall i Hi). apply lookup_replicate_2.
    apply lookup_lt_is_Some. rewrite (Hall i Hi). eauto.
  - intros b Hb. by rewrite lookup_insert_ne.
Qed.

(** C8. Scrubbing a partial segment: in a diagnostics build, when the
    segment at the head of the sweep list is classified [SEGMENT_PARTIAL], one
    iteration of the driver leaves the bytes of every block whose mark entry
    is unset at zero and the bytes of every block whose mark entry is set, as
    well as the bitmap, as they were; when the segment is classified
    [SEGMENT_FILLED], none of its bytes changes. *)
Theorem partial_segment_scrub h a s r s1 :
  DEBUG_sanity = true →
  segments h !! a = Some s → segment_layout s → class_in_range s →
  length (allocators h) = NONMOVING_ALLOCA_CNT →
  nonmoving_sweep_segment s = Ok (r, s1) → r ≠ SEGMENT_FREE →
  ∃ h' s', sweep_step a h = Ok h' ∧ segments h' !! a = Some s' ∧
    block_size s' = block_size s ∧
    (r = SEGMENT_PARTIAL →
       (∀ i, i < nonmoving_segment_block_count s → unmarked s i →
          block_contents s' i =
            replicate (nonmoving_segment_block_size s) 0%Z) ∧
       (∀ i, i < nonmoving_segment_block_count s → marked s i →
          block_contents s' i = block_contents s i) ∧
       (∀ i, i < nonmoving_segment_block_count s →
          bitmap s' !! i = bitmap s !! i)) ∧
    (r = SEGMENT_FILLED → bitmap s' = bitmap s).
Proof.
  intros Hdbg Hs Hlay Hr Hcnt Hcls Hnf.
  destruct (sweep_segment_frame _ _ _ Hcls) as (Hl1 & Hbs1 & Hbm1).
  destruct (lookup_lt_is_Some_2 (allocators h) (class_of s)) as [alloc Ha].
  { unfold class_of, class_in_range in *. lia. }
  destruct r; [done| |].
  - destruct (clear_segment_free_blocks_spec (set_link (active alloc) s1))
      as (s2 & Hscrub & Hl2 & Hnf2 & Hsn2 & Hbs2 & Hbits & Hzero & Hkeep).
    { apply (segment_layout_ext s); simpl; [done|by rewrite Hbm1|done]. }
    eexists _, s2. split.
    { eapply sweep_step_partial; [done..|]. simpl. by rewrite Hdbg. }
    simpl. rewrite lookup_insert_eq. split; [done|].
    unfold block_contents, unmarked, marked, nonmoving_segment_block_count,
      nonmoving_segment_block_size, nonmoving_segment_get_block in *.
    simpl in *. rewrite Hbs1, Hbm1 in *.
    split; [congruence|]. split; [|done]. intros _. by split_and!.
  - eexists _, _. split; [by eapply sweep_step_filled|]. simpl.
    rewrite lookup_insert_eq. split; [done|]. simpl.
    split; [done|]. split; [done|]. done.
Qed.

(** ** Link chains *)

(** A chain only depends on the segments it visits. *)
Lemma chain_ext m m' p l :
  chain m p l → (∀ b, b ∈ l → m' !! b = m !! b) → chain m' p l.
Proof.
  revert p. induction l as [|a l IH]; intros p; simpl; [done|].
  intros (-> & s & Hs & Hrest) Hsame. split; [done|]. exists s. split.
  - rewrite Hsame; [done|]. apply list_elem_of_here.
  - apply IH; [done|]. intros b Hb. apply Hsame. by apply list_elem_of_further.
Qed.

Lemma chain_functional m p l1 : ∀ l2, chain m p l1 → chain m p l2 → l1 = l2.
Proof.
  revert p. induction l1 as [|a l1 IH]; intros p [|b l2]; simpl.
  - done.
  - intros -> [? _]. done.
  - intros [-> _] ?. done.
  - intros (-> & s & Hs & H1) ([= <-] & s' & Hs' & H2).
    rewrite Hs in Hs'. injection Hs' as <-. f_equal. by eapply IH.
Qed.

Lemma chain_from_member m p l a :
  chain m p l → a ∈ l →
  ∃ l1 l2, l = l1 ++ a :: l2 ∧ chain m (Some a) (a :: l2).
Proof.
  revert p. induction l as [|b l IH]; intros p Hc Hin.
  - by apply not_elem_of_nil in Hin.
  - destruct Hc as (-> & s & Hs & Hrest).
    destruct (decide (a = b)) as [->|Hne].
    + exists [], l. split; [done|]. simpl. eauto.
    + apply elem_of_cons in Hin as [?|Hin]; [done|].
      destruct (IH _ Hrest Hin) as (l1 & l2 & -> & Hc).
      exists (b :: l1), l2. done.
Qed.

(** A list that ends in NULL has no cycle: no segment is met twice. *)
Lemma chain_NoDup m p l : chain m p l → NoDup l.
Proof.
  revert p. induction l as [|a l IH]; intros p Hc; [constructor|].
  pose proof Hc as (-> & s & Hs & Hrest).
  apply NoDup_cons. split; [|by eapply IH].
  intros Hin. destruct (chain_from_member _ _ _ _ Hrest Hin)
    as (l1 & l2 & -> & Hsuf).
  pose proof (chain_functional _ _ _ _ Hc Hsuf) as Heq.
  apply (f_equal length) in Heq. simpl in Heq.
  rewrite length_app in Heq. simpl in Heq. lia.
Qed.

(** Pushing on the front of a list. *)
Lemma chain_push m p l a s :
  chain m p l → a ∉ l → link s = p → chain (<[a := s]> m) (Some a) (a :: l).
Proof.
  intros Hc Hnin Hl. simpl. split; [done|]. exists s.
  rewrite lookup_insert_eq. split; [done|]. rewrite Hl.
  apply (chain_ext m); [done|]. intros b Hb.
  apply lookup_insert_ne. by intros ->.
Qed.

(** Linking the last segment of one list to the head of another. *)
Lemma chain_append m p l1 la s q l2 :
  chain m p l1 → last l1 = Some la → m !! la = Some s →
  chain m q l2 → (∀ x, x ∈ l1 → x ∉ l2) →
  chain (<[la := set_link q s]> m) p (l1 ++ l2).
Proof.
  intros Hc Hlast Hs Hq Hdisj.
  assert (Hq' : chain (<[la := set_link q s]> m) q l2).
  { apply (chain_ext m); [done|]. intros b Hb. apply lookup_insert_ne.
    intros ->. apply (Hdisj b); [|done].
    apply last_Some in Hlast as [l' ->]. apply elem_of_app. right.
    apply list_elem_of_here. }
  clear Hq Hdisj. pose proof (chain_NoDup _ _ _ Hc) as Hnd.
  revert p Hc Hlast Hnd. induction l1 as [|a l1 IH]; intros p Hc Hlast Hnd.
  - done.
  - destruct Hc as (-> & sa & Hsa & Hrest). apply NoDup_cons in Hnd as [Hnin Hnd].
    simpl. split; [done|]. destruct l1 as [|b l1].
    + simpl in Hlast. injection Hlast as <-. rewrite Hs in Hsa.
      injection Hsa as <-. exists (set_link q s).
      rewrite lookup_insert_eq. split; [done|]. done.
    + exists sa. split.
      * rewrite lookup_insert_ne; [done|]. intros <-. apply Hnin.
        rewrite last_cons_cons in Hlast. apply last_Some in Hlast as [l' ->].
        apply elem_of_app. right. apply list_elem_of_here.
      * apply IH; [done| |done]. by rewrite last_cons_cons in Hlast.
Qed.

(** The walk of [prepare_sweep] finds the last segment of a list. *)
Lemma last_segment_spec h l : ∀ fuel hd,
  chain (segments h) (Some hd) l → length l ≤ fuel →
  ∃ la s, last l = Some la ∧ last_segment fuel h hd = Ok la ∧
          segments h !! la = Some s ∧ link s = None.
Proof.
  induction l as [|a l IH]; intros fuel hd Hc Hfuel; [done|].
  destruct Hc as ([= <-] & s & Hs & Hrest).
  destruct fuel as [|fuel]; [simpl in Hfuel; lia|]. simpl in Hfuel.
  simpl. unfold deref. rewrite Hs. simpl.
  destruct l as [|b l].
  - simpl in Hrest. rewrite Hrest. exists hd, s. done.
  - pose proof Hrest as (Hl & _). rewrite Hl.
    destruct (IH fuel b) as (la & s' & Hlast & Hrun & Hla & Hnone);
      [by rewrite <- Hl|lia|].
    exists la, s'. by rewrite last_cons_cons.
Qed.

(** ** Termination of the driver's loop *)

(** C10. On a sweep list that ends in NULL (finite, without cycle) and whose
    segments are sweepable, the loop of [nonmoving_sweep] terminates; it pops
    the segments of the list in list order, each exactly once, although each
    iteration overwrites the link field of the segment it re-files.  Any fuel
    from the length of the list on is enough. *)
Theorem sweep_loop_terminates l : ∀ h,
  chain (segments h) (sweep_list h) l →
  (∀ a s, a ∈ l → segments h !! a = Some s → sweepable s) →
  length (allocators h) = NONMOVING_ALLOCA_CNT →
  ∃ h', sweep_run h l h' ∧ NoDup l ∧ sweep_list h' = None ∧
        ∀ fuel, length l ≤ fuel → sweep_loop fuel h = Ok h'.
Proof.
  induction l as [|a l IH]; intros h Hc Hok Hcnt.
  - simpl in Hc. exists h. split_and!; [by constructor|constructor|done|].
    intros [|fuel] _; simpl; by rewrite Hc.
  - pose proof (chain_NoDup _ _ _ Hc) as Hnd.
    destruct Hc as (Hhd & s & Hs & Hrest).
    apply NoDup_cons in Hnd as [Hnin Hnd'].
    destruct (sweep_step_ok h a s) as (r & s1 & s2 & h1 & _ & Hstep & _ & Hm & Hsl & Hlists);
      [done|by eapply Hok; [apply list_elem_of_here|]|done|].
    assert (Hsame : ∀ b, b ∈ l → segments h1 !! b = segments h !! b).
    { intros b Hb. rewrite Hm. apply lookup_insert_ne. by intros ->. }
    destruct (IH h1) as (h' & Hrun & _ & Hnone & Hfuel).
    + rewrite Hsl. by apply (chain_ext (segments h)).
    + intros b sb Hb Hsb. rewrite Hsame in Hsb by done.
      eapply Hok; [by apply list_elem_of_further|done].
    + destruct r.
      * by destruct Hlists as (_ & _ & ->).
      * destruct Hlists as (_ & alloc & _ & _ & ->). by rewrite length_insert.
      * destruct Hlists as (_ & alloc & _ & _ & ->). by rewrite length_insert.
    + exists h'. split_and!; [by econstructor|by apply NoDup_cons|done|].
      intros [|fuel] Hlen; simpl in Hlen; [lia|]. simpl.
      rewrite Hhd, Hstep. simpl. apply Hfuel. lia.
Qed.

(** ** Lists of lists *)

Lemma elem_of_concat_lookup (ls : list (list nat)) x :
  x ∈ concat ls ↔ ∃ i l, ls !! i = Some l ∧ x ∈ l.
Proof.
  induction ls as [|l0 ls IH]; simpl.
  - split; [by intros ?%not_elem_of_nil|by intros (i & l & ? & _)].
  - rewrite elem_of_app, IH. split.
    + intros [Hx|(i & l & Hi & Hx)]; [by exists 0, l0|by exists (S i), l].
    + intros ([|i] & l & Hi & Hx); simpl in Hi; [|by eauto].
      injection Hi as <-. by left.
Qed.

Lemma NoDup_concat_lookup (ls : list (list nat)) i j l1 l2 x :
  NoDup (concat ls) → ls !! i = Some l1 → ls !! j = Some l2 →
  x ∈ l1 → x ∈ l2 → i = j.
Proof.
  revert i j. induction ls as [|l0 ls IH]; intros i j Hnd Hi Hj H1 H2;
    [done|].
  simpl in Hnd. apply NoDup_app in Hnd as (_ & Hdisj & Hnd).
  destruct i as [|i], j as [|j]; simpl in *.
  - done.
  - injection Hi as <-. destruct (Hdisj x H1).
    apply elem_of_concat_lookup. eauto.
  - injection Hj as <-. destruct (Hdisj x H2).
    apply elem_of_concat_lookup. eauto.
  - f_equal. by eapply IH.
Qed.

Lemma concat_insert_nil (ls : list (list nat)) i l :
  ls !! i = Some l → l ++ concat (<[i := []]> ls) ≡ₚ concat ls.
Proof.
  revert i. induction ls as [|l0 ls IH]; intros [|i] Hi; simpl in *; try done.
  - injection Hi as <-. done.
  - rewrite <- (IH i Hi). by rewrite !(assoc_L (++)), (comm (++) l l0).
Qed.

Lemma concat_insert_cons (ls : list (list nat)) i l a :
  ls !! i = Some l → concat (<[i := a :: l]> ls) ≡ₚ a :: concat ls.
Proof.
  revert i. induction ls as [|l0 ls IH]; intros [|i] Hi; simpl in *; try done.
  - injection Hi as <-. done.
  - rewrite (IH i Hi). by rewrite <- Permutation_middle.
Qed.

(** ** Membership in the lists of a well-formed heap *)

Lemma placed_all_segments L a pl : placed L a pl → a ∈ all_segments L.
Proof.
  unfold all_segments. rewrite !elem_of_app, !elem_of_concat_lookup.
  destruct pl; simpl; [by eauto|by eauto| |].
  - intros (l & ? & ?). right. right. left. eauto.
  - intros (l & ? & ?). right. right. right. eauto.
Qed.

(** No segment is on two lists. *)
Lemma placed_unique L a p q :
  NoDup (all_segments L) → placed L a p → placed L a q → p = q.
Proof.
  unfold all_segments. intros Hnd.
  apply NoDup_app in Hnd as (_ & Hsw & Hnd).
  apply NoDup_app in Hnd as (_ & Hfr & Hnd).
  apply NoDup_app in Hnd as (Hact & Hdisj & Hfil).
  assert (Hca : ∀ c l, l_active L !! c = Some l → a ∈ l →
            a ∈ concat (l_active L)).
  { intros c l ? ?. apply elem_of_concat_lookup. eauto. }
  assert (Hcf : ∀ c l, l_filled L !! c = Some l → a ∈ l →
            a ∈ concat (l_filled L)).
  { intros c l ? ?. apply elem_of_concat_lookup. eauto. }
  destruct p, q; simpl; try done;
    repeat match goal with
    | |- (∃ _, _) → _ => intros (? & ? & ?)
    | |- _ → _ => intros ?
    end;
    try (exfalso;
         first [ eapply (Hsw a); [done|]; rewrite !elem_of_app; by eauto 6
               | eapply (Hfr a); [done|]; rewrite !elem_of_app; by eauto 6
               | eapply (Hdisj a); by eauto ]).
  - f_equal. by eapply (NoDup_concat_lookup (l_active L)).
  - f_equal. by eapply (NoDup_concat_lookup (l_filled L)).
Qed.

(** Updating entry [i] of the allocator array and of the per-class lists
    while the memory changes outside the lists of the other classes. *)
Lemma Forall2_chain_ext m m' (f : nonmoving_allocator → option nat) als ls :
  Forall2 (λ a l, chain m (f a) l) als ls →
  (∀ j l b, ls !! j = Some l → b ∈ l → m' !! b = m !! b) →
  Forall2 (λ a l, chain m' (f a) l) als ls.
Proof.
  induction 1 as [|a l als ls Hc _ IH]; intros Hsame; constructor.
  - apply (chain_ext m); [done|]. intros b Hb. by apply (Hsame 0 l).
  - apply IH. intros j l' b Hj Hb. by apply (Hsame (S j) l').
Qed.

Lemma Forall2_chain_update m m' (f : nonmoving_allocator → option nat)
    als ls i x y :
  Forall2 (λ a l, chain m (f a) l) als ls →
  (∀ j l b, j ≠ i → ls !! j = Some l → b ∈ l → m' !! b = m !! b) →
  chain m' (f x) y →
  Forall2 (λ a l, chain m' (f a) l) (<[i := x]> als) (<[i := y]> ls).
Proof.
  intros HF. revert i. induction HF as [|a l als ls Hc HF IH];
    intros i Hsame Hxy; [constructor|].
  destruct i as [|i]; simpl; constructor.
  - done.
  - apply (Forall2_chain_ext m); [done|]. intros j l' b Hj Hb.
    by apply (Hsame (S j) l').
  - apply (chain_ext m); [done|]. intros b Hb. by apply (Hsame 0 l).
  - apply IH; [|done]. intros j l' b Hne Hj Hb.
    apply (Hsame (S j) l'); [lia|done..].
Qed.

Lemma all_segments_stage L idx l :
  l_filled L !! idx = Some l → all_segments (stage idx L) ≡ₚ all_segments L.
Proof.
  intros Hl. unfold all_segments, stage. simpl.
  rewrite (list_lookup_total_correct _ _ _ Hl).
  rewrite <- (concat_insert_nil (l_filled L) idx l Hl).
  rewrite <- (assoc_L (++) l). rewrite (Permutation_app_swap_app l).
  f_equiv. rewrite (Permutation_app_swap_app l). f_equiv.
  by rewrite (Permutation_app_swap_app l).
Qed.

Lemma all_segments_refile L r c a rest la lf :
  l_sweep L = a :: rest →
  l_active L !! c = Some la → l_filled L !! c = Some lf →
  all_segments (refile r c a L) ≡ₚ all_segments L.
Proof.
  intros Hsw Hla Hlf. unfold all_segments. rewrite Hsw.
  destruct r; simpl; rewrite Hsw; simpl.
  - rewrite <- Permutation_middle. done.
  - rewrite (list_lookup_total_correct _ _ _ Hla).
    rewrite (concat_insert_cons _ _ _ a Hla). simpl.
    rewrite !(assoc_L (++)), <- Permutation_middle.
    by rewrite ?(assoc_L (++)).
  - rewrite (list_lookup_total_correct _ _ _ Hlf).
    rewrite (concat_insert_cons _ _ _ a Hlf).
    rewrite !(assoc_L (++)), <- Permutation_middle.
    by rewrite ?(assoc_L (++)).
Qed.

(** ** Staging the filled lists *)

Lemma set_link_same s : set_link (link s) s = s.
Proof. by destruct s. Qed.

(** One iteration of [prepare_sweep] on a well-formed heap: the filled list
    of allocator [idx] moves to the front of the sweep list, and only the
    link of its last segment is written. *)
Lemma prepare_sweep_allocator_spec fuel idx h L :
  represents h L → idx < NONMOVING_ALLOCA_CNT →
  length (l_filled L !!! idx) ≤ fuel →
  ∃ h', prepare_sweep_allocator fuel idx h = Ok h' ∧
    represents h' (stage idx L) ∧
    (∀ b, ¬ placed L b (OnFilled idx) →
       segments h' !! b = segments h !! b) ∧
    (∀ b s, segments h !! b = Some s →
       ∃ q, segments h' !! b = Some (set_link q s)).
Proof.
  intros (Hsw & Hfr & Hact & Hfil & Hcnt & Hnd) Hidx Hfuel.
  destruct (lookup_lt_is_Some_2 (allocators h) idx) as [alloc Ha]; [lia|].
  destruct (lookup_lt_is_Some_2 (l_filled L) idx) as [l Hl].
  { rewrite <- (Forall2_length _ _ _ Hfil). lia. }
  destruct (lookup_lt_is_Some_2 (l_active L) idx) as [la Hla].
  { rewrite <- (Forall2_length _ _ _ Hact). lia. }
  pose proof (Forall2_lookup_lr _ _ _ _ _ _ Hfil Ha Hl) as Hcl.
  pose proof (Forall2_lookup_lr _ _ _ _ _ _ Hact Ha Hla) as Hcla.
  simpl in Hcl, Hcla.
  pose proof (all_segments_stage L idx l Hl) as Hperm.
  rewrite (list_lookup_total_correct _ _ _ Hl) in Hfuel.
  unfold prepare_sweep_allocator, get_allocator.
  case_decide; [|lia]. rewrite Nat2Z.id, Ha. simpl.
  destruct l as [|a l'].
  - simpl in Hcl. rewrite Hcl. eexists. split; [done|]. split.
    + unfold represents. split_and!; [..|by rewrite Hperm]; simpl;
        rewrite ?(list_lookup_total_correct _ _ _ Hl), ?Nat2Z.id.
      * done.
      * done.
      * rewrite <- (list_insert_id (l_active L) idx la Hla).
        by apply (Forall2_chain_update (segments h)).
      * by apply (Forall2_chain_update (segments h)).
      * by rewrite length_insert.
    + simpl. split; [done|]. intros b s Hb. exists (link s).
      by rewrite set_link_same.
  - pose proof Hcl as (Hhd & _). rewrite Hhd.
    set (h2 := set_allocator (Z.of_nat idx)
                 {| filled := None; active := active alloc |} h).
    destruct (last_segment_spec h2 (a :: l') fuel a)
      as (last & s & Hlast & Hwalk & Hs & Hnone); [by rewrite <- Hhd|done|].
    rewrite Hwalk. simpl. unfold deref. rewrite Hs. simpl.
    simpl in Hs.
    assert (Hlin : last ∈ a :: l').
    { apply last_Some in Hlast as [l0 ->]. apply elem_of_app. right.
      apply list_elem_of_here. }
    assert (Hpl : placed L last (OnFilled idx)) by (simpl; eauto).
    assert (Hother : ∀ pl b, pl ≠ OnFilled idx → placed L b pl →
              <[last := set_link (sweep_list h) s]> (segments h) !! b
              = segments h !! b).
    { intros pl b Hne Hb. apply lookup_insert_ne. intros <-.
      apply Hne. by eapply placed_unique. }
    eexists. split; [done|]. split.
    + unfold represents. split_and!; [..|by rewrite Hperm]; simpl;
        rewrite ?(list_lookup_total_correct _ _ _ Hl), ?Nat2Z.id.
      * rewrite <- Hhd. apply chain_append; [done..|].
        intros x Hx Hx'. assert (OnFilled idx = OnSweep); [|done].
        eapply (placed_unique L x); [done| |done]. simpl. eauto.
      * apply (chain_ext (segments h)); [done|]. intros b Hb.
        by apply (Hother OnFree).
      * rewrite <- (list_insert_id (l_active L) idx la Hla).
        apply (Forall2_chain_update (segments h)); [done| |].
        -- intros j l0 b _ Hj Hb. apply (Hother (OnActive j)); [done|].
           simpl. eauto.
        -- apply (chain_ext (segments h)); [done|]. intros b Hb.
           apply (Hother (OnActive idx)); [done|]. simpl. eauto.
      * apply (Forall2_chain_update (segments h)); [done| |done].
        intros j l0 b Hne Hj Hb. apply (Hother (OnFilled j)); [congruence|].
        simpl. eauto.
      * by rewrite length_insert.
    + simpl. split.
      * intros b Hb. apply lookup_insert_ne. by intros <-.
      * intros b sb Hb. destruct (decide (b = last)) as [->|Hne].
        -- rewrite lookup_insert_eq. rewrite Hs in Hb. injection Hb as <-.
           eauto.
        -- rewrite lookup_insert_ne by done. exists (link sb).
           by rewrite set_link_same.
Qed.

Lemma stage_staged L idx :
  idx < length (l_filled L) → stage idx (staged idx L) = staged (S idx) L.
Proof.
  intros Hidx. destruct (lookup_lt_is_Some_2 _ _ Hidx) as [x Hx].
  unfold stage, staged. simpl. f_equal.
  - rewrite lookup_total_app_r by (rewrite length_replicate; lia).
    rewrite length_replicate, Nat.sub_diag, (drop_S _ _ _ Hx). simpl.
    rewrite (take_S_r _ _ _ Hx), reverse_snoc. simpl.
    by rewrite (assoc_L (++)).
  - rewrite (drop_S _ _ _ Hx).
    rewrite insert_app_r_alt by (rewrite length_replicate; lia).
    rewrite length_replicate, Nat.sub_diag. simpl.
    by rewrite app_comm_cons, replicate_cons_app, <- (assoc_L (++)).
Qed.

Lemma staged_filled_lookup L idx :
  idx < length (l_filled L) →
  l_filled (staged idx L) !! idx = l_filled L !! idx.
Proof.
  intros Hidx. simpl.
  rewrite lookup_app_r by (rewrite length_replicate; lia).
  rewrite length_replicate, Nat.sub_diag, lookup_drop. f_equal. lia.
Qed.

(** The loop of [prepare_sweep] from allocator [idx] on. *)
Lemma prepare_sweep_loop_spec fuel L n : ∀ idx h,
  idx + n = NONMOVING_ALLOCA_CNT →
  length (l_filled L) = NONMOVING_ALLOCA_CNT →
  (∀ l, l ∈ l_filled L → length l ≤ fuel) →
  represents h (staged idx L) →
  ∃ h', prepare_sweep_loop fuel n idx h = Ok h' ∧
    represents h' (staged NONMOVING_ALLOCA_CNT L) ∧
    (∀ b, b ∉ concat (l_filled L) → segments h' !! b = segments h !! b) ∧
    (∀ b s, segments h !! b = Some s →
       ∃ q, segments h' !! b = Some (set_link q s)).
Proof.
  induction n as [|n IH]; intros idx h Hn Hlen Hfuel Hrep; simpl.
  - replace idx with NONMOVING_ALLOCA_CNT in Hrep by lia.
    exists h. split_and!; [done..|]. intros b s Hb. exists (link s).
    by rewrite set_link_same.
  - assert (Hidx : idx < length (l_filled L)) by lia.
    destruct (lookup_lt_is_Some_2 _ _ Hidx) as [x Hx].
    pose proof (staged_filled_lookup L idx Hidx) as Hst. rewrite Hx in Hst.
    destruct (prepare_sweep_allocator_spec fuel idx h (staged idx L))
      as (h1 & Hstep & Hrep1 & Hframe1 & Hlink1); [done|lia| |].
    { rewrite (list_lookup_total_correct _ _ _ Hst). apply Hfuel.
      by eapply list_elem_of_lookup_2. }
    rewrite stage_staged in Hrep1 by done.
    destruct (IH (S idx) h1) as (h' & Hloop & Hrep' & Hframe' & Hlink');
      [lia|done..|].
    rewrite Hstep. simpl. exists h'. split_and!; [done..| |].
    + intros b Hb. rewrite Hframe' by done. apply Hframe1.
      intros (l & Hl & Hbl). apply Hb. apply elem_of_concat_lookup.
      exists idx, l. split; [|done]. by rewrite <- staged_filled_lookup.
    + intros b s Hb. destruct (Hlink1 b s Hb) as [q Hq].
      destruct (Hlink' b _ Hq) as [q' Hq']. by exists q'.
Qed.

Lemma staged_all L :
  length (l_filled L) = NONMOVING_ALLOCA_CNT → l_sweep L = [] →
  staged NONMOVING_ALLOCA_CNT L =
    {| l_sweep := concat (reverse (l_filled L)); l_free := l_free L;
       l_active := l_active L;
       l_filled := replicate NONMOVING_ALLOCA_CNT [] |}.
Proof.
  intros Hlen Hsw. unfold staged.
  rewrite take_ge, drop_ge, Hsw by lia. by rewrite !app_nil_r.
Qed.

Lemma staged_none L : staged 0 L = L.
Proof. by destruct L. Qed.

(** [prepare_sweep] on a well-formed heap with an empty sweep list. *)
Lemma prepare_sweep_spec fuel h L :
  represents h L → l_sweep L = [] →
  (∀ l, l ∈ l_filled L → length l ≤ fuel) →
  ∃ h', prepare_sweep fuel h = Ok h' ∧
    represents h'
      {| l_sweep := concat (reverse (l_filled L)); l_free := l_free L;
         l_active := l_active L;
         l_filled := replicate NONMOVING_ALLOCA_CNT [] |} ∧
    (∀ b, b ∉ concat (l_filled L) → segments h' !! b = segments h !! b) ∧
    (∀ b s, segments h !! b = Some s →
       ∃ q, segments h' !! b = Some (set_link q s)).
Proof.
  intros Hrep Hsw Hfuel.
  pose proof Hrep as (Hc & _ & _ & Hfil & Hcnt & _).
  assert (Hlen : length (l_filled L) = NONMOVING_ALLOCA_CNT).
  { by rewrite <- (Forall2_length _ _ _ Hfil). }
  rewrite Hsw in Hc. simpl in Hc.
  unfold prepare_sweep. rewrite Hc. simpl.
  rewrite <- (staged_all L) by done.
  apply prepare_sweep_loop_spec; [done..|]. by rewrite staged_none.
Qed.

Lemma concat_Permutation (ls ls' : list (list nat)) :
  ls ≡ₚ ls' → concat ls ≡ₚ concat ls'.
Proof.
  induction 1 as [|x l l' _ IH|x y l|l l' l'' _ IH1 _ IH2]; simpl.
  - done.
  - by rewrite IH.
  - by rewrite Permutation_app_swap_app.
  - by rewrite IH1.
Qed.

(** C5. Sweep-list preparation: on a well-formed heap with an empty sweep
    list, [prepare_sweep] returns; afterwards the filled list of every
    allocator is empty, and the sweep list holds the segments of the former
    filled lists and nothing else: it is the concatenation of those lists,
    later size classes first, so each former filled list appears on it as one
    uninterrupted run in its original order.  The free and active lists are
    as before. *)
Theorem prepare_sweep_stages fuel h L :
  represents h L → l_sweep L = [] →
  (∀ l, l ∈ l_filled L → length l ≤ fuel) →
  ∃ h', prepare_sweep fuel h = Ok h' ∧
    Forall (λ a, filled a = None) (allocators h') ∧
    chain (segments h') (sweep_list h') (concat (reverse (l_filled L))) ∧
    concat (reverse (l_filled L)) ≡ₚ concat (l_filled L) ∧
    (∀ l, l ∈ l_filled L →
       ∃ pre post, concat (reverse (l_filled L)) = pre ++ l ++ post) ∧
    represents h'
      {| l_sweep := concat (reverse (l_filled L)); l_free := l_free L;
         l_active := l_active L;
         l_filled := replicate NONMOVING_ALLOCA_CNT [] |}.
Proof.
  intros Hrep Hsw Hfuel.
  destruct (prepare_sweep_spec fuel h L Hrep Hsw Hfuel)
    as (h' & Hrun & Hrep' & _).
  exists h'. split; [done|].
  pose proof Hrep' as (Hc & _ & _ & Hfil & _). simpl in Hc, Hfil.
  split_and!; [|done| | |done].
  - apply Forall_lookup_2. intros i a Ha.
    destruct (Forall2_lookup_l _ _ _ _ _ Hfil Ha) as (l & Hl & Hcl).
    apply lookup_replicate in Hl as [-> _]. done.
  - apply concat_Permutation, reverse_Permutation.
  - intros l Hl. apply elem_of_reverse in Hl.
    apply list_elem_of_split in Hl as (l1 & l2 & ->).
    exists (concat l1), (concat l2). by rewrite concat_app.
Qed.

(** ** The sweep-list precondition *)

Lemma sweep_loop_returns fuel : ∀ h h',
  sweep_loop fuel h = Ok h' → sweep_list h' = None.
Proof.
  induction fuel as [|fuel IH]; intros h h'; simpl;
    destruct (sweep_list h) eqn:Hsl; try discriminate.
  - by intros [= <-].
  - intros H. apply bind_Ok in H as (h1 & _ & H). by eapply IH.
  - by intros [= <-].
Qed.

(** ** Re-filing on a well-formed heap *)

Lemma placed_refile_new L r c a :
  c < length (l_active L) → c < length (l_filled L) →
  placed (refile r c a L) a (place_of r c).
Proof.
  intros Ha Hf. destruct r; simpl.
  - apply list_elem_of_here.
  - eexists. rewrite list_lookup_insert_eq by done. split; [done|].
    apply list_elem_of_here.
  - eexists. rewrite list_lookup_insert_eq by done. split; [done|].
    apply list_elem_of_here.
Qed.

Lemma placed_refile_old L r c a b pl :
  pl ≠ OnSweep → placed L b pl → placed (refile r c a L) b pl.
Proof.
  intros Hne. destruct r, pl; simpl; try done.
  - by apply list_elem_of_further.
  - intros (l & Hl & Hb). destruct (decide (c = c0)) as [->|Hc].
    + exists (a :: l). rewrite (list_lookup_total_correct _ _ _ Hl).
      rewrite list_lookup_insert_eq by (by eapply lookup_lt_Some).
      split; [done|]. by apply list_elem_of_further.
    + exists l. by rewrite list_lookup_insert_ne.
  - intros (l & Hl & Hb). destruct (decide (c = c0)) as [->|Hc].
    + exists (a :: l). rewrite (list_lookup_total_correct _ _ _ Hl).
      rewrite list_lookup_insert_eq by (by eapply lookup_lt_Some).
      split; [done|]. by apply list_elem_of_further.
    + exists l. by rewrite list_lookup_insert_ne.
Qed.

Lemma refile_sweep L r c a rest :
  l_sweep L = a :: rest → l_sweep (refile r c a L) = rest.
Proof. intros HL. destruct r; simpl; by rewrite HL. Qed.

(** One iteration of the driver's loop keeps the heap well formed: the head
    of the sweep list moves to the list its verdict selects. *)
Lemma sweep_step_represents h L a rest s :
  represents h L → l_sweep L = a :: rest →
  segments h !! a = Some s → sweepable s →
  ∃ r s1 s2 h',
    nonmoving_sweep_segment s = Ok (r, s1) ∧
    sweep_step a h = Ok h' ∧
    scrub r (set_link (link s2) s1) = Ok s2 ∧
    segments h' = <[a := s2]> (segments h) ∧
    represents h' (refile r (class_of s) a L).
Proof.
  intros Hrep HL Hs Hok.
  pose proof Hrep as (Hsw & Hfr & Hact & Hfil & Hcnt & Hnd).
  destruct (sweep_step_ok h a s Hs Hok Hcnt)
    as (r & s1 & s2 & h' & Hcls & Hstep & Hscrub & Hm & Hsl & Hlists).
  exists r, s1, s2, h'. split_and!; [done..|].
  assert (Hc : class_of s < NONMOVING_ALLOCA_CNT).
  { destruct Hok as (_ & Hr & _). unfold class_of, class_in_range in *. lia. }
  destruct (lookup_lt_is_Some_2 (l_active L) (class_of s)) as [la Hla].
  { rewrite <- (Forall2_length _ _ _ Hact). lia. }
  destruct (lookup_lt_is_Some_2 (l_filled L) (class_of s)) as [lf Hlf].
  { rewrite <- (Forall2_length _ _ _ Hfil). lia. }
  pose proof (all_segments_refile L r _ a rest la lf HL Hla Hlf) as Hperm.
  assert (Hpl : placed L a OnSweep).
  { simpl. rewrite HL. apply list_elem_of_here. }
  assert (Hfresh : ∀ pl, pl ≠ OnSweep → ¬ placed L a pl).
  { intros pl Hne Hp. apply Hne. by eapply placed_unique. }
  assert (Hother : ∀ pl b, pl ≠ OnSweep → placed L b pl →
            segments h' !! b = segments h !! b).
  { intros pl b Hne Hb. rewrite Hm. apply lookup_insert_ne. intros <-.
    by eapply Hfresh. }
  assert (Hoa : ∀ j l b, l_active L !! j = Some l → b ∈ l →
            segments h' !! b = segments h !! b).
  { intros j l b Hj Hb. apply (Hother (OnActive j)); [done|]. simpl. eauto. }
  assert (Hof : ∀ j l b, l_filled L !! j = Some l → b ∈ l →
            segments h' !! b = segments h !! b).
  { intros j l b Hj Hb. apply (Hother (OnFilled j)); [done|]. simpl. eauto. }
  assert (Hna : a ∉ la).
  { intros Hin. apply (Hfresh (OnActive (class_of s))); [done|]. simpl. eauto. }
  assert (Hnf : a ∉ lf).
  { intros Hin. apply (Hfresh (OnFilled (class_of s))); [done|]. simpl. eauto. }
  unfold represents. split_and!; [..|by rewrite Hperm].
  - rewrite (refile_sweep _ _ _ _ rest) by done. rewrite HL in Hsw.
    pose proof (chain_NoDup _ _ _ Hsw) as [Hnin _]%NoDup_cons.
    destruct Hsw as (_ & s' & Hs' & Hrest). rewrite Hs in Hs'.
    injection Hs' as <-. rewrite Hsl, Hm.
    apply (chain_ext (segments h)); [done|]. intros b Hb.
    apply lookup_insert_ne. by intros ->.
  - destruct r; simpl.
    + destruct Hlists as (-> & Hl2 & _). rewrite Hm.
      apply (chain_push _ (free h)); [done| |done]. by apply (Hfresh OnFree).
    + destruct Hlists as (-> & _).
      apply (chain_ext (segments h)); [done|]. intros b Hb.
      by apply (Hother OnFree).
    + destruct Hlists as (-> & _).
      apply (chain_ext (segments h)); [done|]. intros b Hb.
      by apply (Hother OnFree).
  - destruct r; simpl.
    + destruct Hlists as (_ & _ & ->).
      by apply (Forall2_chain_ext (segments h)).
    + destruct Hlists as (_ & alloc & Ha & Hl2 & ->).
      rewrite (list_lookup_total_correct _ _ _ Hla).
      apply (Forall2_chain_update (segments h)); [done|by eauto|].
      simpl. rewrite Hm. apply (chain_push _ (active alloc)); [|done..].
      apply (Forall2_lookup_lr _ _ _ _ _ _ Hact Ha Hla).
    + destruct Hlists as (_ & alloc & Ha & Hl2 & ->).
      rewrite <- (list_insert_id (l_active L) _ _ Hla).
      apply (Forall2_chain_update (segments h)); [done|by eauto|].
      simpl. apply (chain_ext (segments h)); [|by eauto].
      apply (Forall2_lookup_lr _ _ _ _ _ _ Hact Ha Hla).
  - destruct r; simpl.
    + destruct Hlists as (_ & _ & ->).
      by apply (Forall2_chain_ext (segments h)).
    + destruct Hlists as (_ & alloc & Ha & Hl2 & ->).
      rewrite <- (list_insert_id (l_filled L) _ _ Hlf).
      apply (Forall2_chain_update (segments h)); [done|by eauto|].
      simpl. apply (chain_ext (segments h)); [|by eauto].
      apply (Forall2_lookup_lr _ _ _ _ _ _ Hfil Ha Hlf).
    + destruct Hlists as (_ & alloc & Ha & Hl2 & ->).
      rewrite (list_lookup_total_correct _ _ _ Hlf).
      apply (Forall2_chain_update (segments h)); [done|by eauto|].
      simpl. rewrite Hm. apply (chain_push _ (filled alloc)); [|done..].
      apply (Forall2_lookup_lr _ _ _ _ _ _ Hfil Ha Hlf).
  - destruct r.
    + by destruct Hlists as (_ & _ & ->).
    + destruct Hlists as (_ & alloc & _ & _ & ->). by rewrite length_insert.
    + destruct Hlists as (_ & alloc & _ & _ & ->). by rewrite length_insert.
Qed.

(** The whole loop on a well-formed heap: every segment of the sweep list
    ends up on the list its verdict selects, the segments already on a list
    stay there, and no segment off the sweep list is written. *)
Lemma sweep_loop_represents ls : ∀ fuel h L,
  represents h L → l_sweep L = ls →
  (∀ a s, a ∈ ls → segments h !! a = Some s → sweepable s) →
  length ls ≤ fuel →
  ∃ h' L', sweep_loop fuel h = Ok h' ∧ represents h' L' ∧ l_sweep L' = [] ∧
    (∀ a s, a ∈ ls → segments h !! a = Some s →
       ∃ r s1 s2, nonmoving_sweep_segment s = Ok (r, s1) ∧
         placed L' a (place_of r (class_of s)) ∧
         scrub r (set_link (link s2) s1) = Ok s2 ∧
         segments h' !! a = Some s2) ∧
    (∀ b pl, pl ≠ OnSweep → placed L b pl → placed L' b pl) ∧
    (∀ b, b ∉ ls → segments h' !! b = segments h !! b).
Proof.
  induction ls as [|a rest IH]; intros fuel h L Hrep HL Hok Hfuel.
  - pose proof Hrep as (Hsw & _). rewrite HL in Hsw. simpl in Hsw.
    exists h, L. split_and!; [|done..| |done|done].
    + destruct fuel; simpl; by rewrite Hsw.
    + intros a s Ha. by apply not_elem_of_nil in Ha.
  - pose proof Hrep as (Hsw & _ & Hact & Hfil & Hcnt & _).
    rewrite HL in Hsw. pose proof (chain_NoDup _ _ _ Hsw) as [Hnin _]%NoDup_cons.
    destruct Hsw as (Hhd & s & Hs & _).
    assert (Hsok : sweepable s) by (eapply Hok; [apply list_elem_of_here|done]).
    destruct (sweep_step_represents h L a rest s)
      as (r & s1 & s2 & h1 & Hcls & Hstep & Hscrub & Hm & Hrep1); [done..|].
    destruct fuel as [|fuel]; [simpl in Hfuel; lia|]. simpl in Hfuel.
    assert (Hsame : ∀ b, b ≠ a → segments h1 !! b = segments h !! b).
    { intros b Hb. rewrite Hm. by apply lookup_insert_ne. }
    destruct (IH fuel h1 (refile r (class_of s) a L))
      as (h' & L' & Hloop & Hrep' & HL' & Hnew & Hold & Hframe);
      [done|by apply refile_sweep| |lia|].
    { intros b sb Hb Hsb. rewrite Hsame in Hsb by (by intros ->).
      eapply Hok; [by apply list_elem_of_further|done]. }
    exists h', L'. split_and!; [|done..| | |].
    + simpl. rewrite Hhd, Hstep. done.
    + intros b sb Hb Hsb. apply elem_of_cons in Hb as [->|Hb].
      * rewrite Hs in Hsb. injection Hsb as <-. exists r, s1, s2.
        split_and!; [done| |done|].
        -- apply Hold; [by destruct r|].
           destruct Hsok as (_ & Hr & _).
           apply placed_refile_new.
           ++ rewrite <- (Forall2_length _ _ _ Hact).
              unfold class_of, class_in_range in *. lia.
           ++ rewrite <- (Forall2_length _ _ _ Hfil).
              unfold class_of, class_in_range in *. lia.
        -- rewrite Hframe by done. rewrite Hm. apply lookup_insert_eq.
      * apply Hnew; [done|]. rewrite Hsame; [done|]. by intros ->.
    + intros b pl Hne Hb. apply Hold; [done|]. by apply placed_refile_old.
    + intros b Hb. apply not_elem_of_cons in Hb as [Hne Hb].
      rewrite Hframe by done. by apply Hsame.
Qed.

(** ** The full pass *)

Lemma chain_lookup m p l a : chain m p l → a ∈ l → ∃ s, m !! a = Some s.
Proof.
  intros Hc Ha. destruct (chain_from_member _ _ _ _ Hc Ha)
    as (l1 & l2 & _ & _ & s & Hs & _). eauto.
Qed.

Lemma length_concat_lookup (ls : list (list nat)) i l :
  ls !! i = Some l → length l ≤ length (concat ls).
Proof.
  revert i. induction ls as [|l0 ls IH]; intros [|i] Hi; simpl in *;
    try done; rewrite length_app.
  - injection Hi as <-. lia.
  - specialize (IH i Hi). lia.
Qed.

(** [nonmoving_sweep] on a well-formed heap whose filled segments are
    sweepable. *)
Lemma nonmoving_sweep_spec fuel h L :
  represents h L → l_sweep L = [] →
  (∀ a s, a ∈ concat (l_filled L) → segments h !! a = Some s → sweepable s) →
  length (concat (l_filled L)) ≤ fuel →
  ∃ h' L', nonmoving_sweep fuel h = Ok h' ∧ represents h' L' ∧
    l_sweep L' = [] ∧
    (∀ a, a ∈ concat (l_filled L) →
       ∃ s r s1 s2, segments h !! a = Some s ∧
         nonmoving_sweep_segment s = Ok (r, s1) ∧
         placed L' a (place_of r (class_of s)) ∧
         scrub r (set_link (link s2) s1) = Ok s2 ∧
         segments h' !! a = Some s2) ∧
    (∀ b pl, pl = OnFree ∨ (∃ c, pl = OnActive c) → placed L b pl →
       placed L' b pl ∧ segments h' !! b = segments h !! b).
Proof.
  intros Hrep HL Hok Hfuel.
  pose proof Hrep as (_ & _ & _ & Hfil & _ & Hnd).
  destruct (prepare_sweep_spec fuel h L Hrep HL)
    as (h1 & Hprep & Hrep1 & Hframe1 & Hlink1).
  { intros l [i Hi]%list_elem_of_lookup_1.
    pose proof (length_concat_lookup _ _ _ Hi). lia. }
  assert (Hperm : concat (reverse (l_filled L)) ≡ₚ concat (l_filled L))
    by apply concat_Permutation, reverse_Permutation.
  assert (Hseg : ∀ a, a ∈ concat (l_filled L) →
            ∃ s, segments h !! a = Some s).
  { intros a (i & l & Hl & Ha)%elem_of_concat_lookup.
    destruct (Forall2_lookup_r _ _ _ _ _ Hfil Hl) as (alloc & _ & Hc).
    by eapply chain_lookup. }
  set (L1 := {| l_sweep := concat (reverse (l_filled L));
                l_free := l_free L; l_active := l_active L;
                l_filled := replicate NONMOVING_ALLOCA_CNT [] |}) in *.
  destruct (sweep_loop_represents (concat (reverse (l_filled L))) fuel h1 L1)
    as (h' & L' & Hloop & Hrep' & HL' & Hnew & Hold & Hframe'); [done|done| | |].
  { intros a s1 Ha Hs1. rewrite Hperm in Ha.
    destruct (Hseg a Ha) as [s Hs]. destruct (Hlink1 a s Hs) as [q Hq].
    rewrite Hq in Hs1. injection Hs1 as <-.
    exact (Hok a s Ha Hs). }
  { by rewrite Hperm. }
  exists h', L'. unfold nonmoving_sweep. rewrite Hprep. simpl.
  split_and!; [done..| |].
  - intros a Ha. destruct (Hseg a Ha) as [s Hs].
    destruct (Hlink1 a s Hs) as [q Hq].
    destruct (Hnew a (set_link q s)) as (r & s1 & s2 & Hcls & Hpl & Hscrub & Hs2);
      [by rewrite Hperm|done|].
    destruct (sweep_segment_frame _ _ _ Hcls) as (Hl1 & _).
    apply (sweep_segment_set_link (link s)) in Hcls.
    change (set_link (link s) (set_link q s))
      with (set_link (link s) s) in Hcls.
    rewrite set_link_same in Hcls.
    exists s, r, (set_link (link s) s1), s2. by split_and!.
  - intros b pl Hpl Hb. split.
    + apply Hold; [by destruct Hpl as [->|[c ->]]|].
      by destruct Hpl as [->|[c ->]].
    + assert (Hnin : b ∉ concat (l_filled L)).
      { intros (i & l & Hl & Hbl)%elem_of_concat_lookup.
        assert (pl = OnFilled i) as ->.
        { eapply (placed_unique L b); [done..|]. simpl. eauto. }
        by destruct Hpl as [?|[c ?]]. }
      rewrite Hframe'; [by apply Hframe1|]. by rewrite Hperm.
Qed.

Lemma scrub_scrubbed r seg seg' :
  scrub r seg = Ok seg' → segment_layout seg →
  block_size seg' = block_size seg ∧ next_free seg' = next_free seg ∧
  next_free_snap seg' = next_free_snap seg ∧ scrubbed r seg seg'.
Proof.
  unfold scrub, scrubbed. intros Hscrub Hlay.
  destruct r, DEBUG_sanity; try (by injection Hscrub as <-).
  - rewrite clear_segment_zeroes in Hscrub. by injection Hscrub as <-.
  - destruct (clear_segment_free_blocks_spec seg Hlay)
      as (s2 & Hrun & _ & ? & ? & ? & ? & ? & ?).
    rewrite Hrun in Hscrub. injection Hscrub as <-. by split_and!.
Qed.

(** The contents of the formerly filled segments after a full pass: each
    carries the cursors its scan left and the bytes its scrubbing left. *)
Lemma nonmoving_sweep_contents fuel h L :
  represents h L → l_sweep L = [] →
  (∀ a s, a ∈ concat (l_filled L) → segments h !! a = Some s → sweepable s) →
  length (concat (l_filled L)) ≤ fuel →
  ∃ h', nonmoving_sweep fuel h = Ok h' ∧
    ∀ a, a ∈ concat (l_filled L) →
      ∃ s r s1 s', segments h !! a = Some s ∧
        nonmoving_sweep_segment s = Ok (r, s1) ∧
        segments h' !! a = Some s' ∧
        block_size s' = block_size s ∧ next_free s' = next_free s1 ∧
        next_free_snap s' = next_free_snap s1 ∧ scrubbed r s s'.
Proof.
  intros Hrep HL Hok Hfuel.
  destruct (nonmoving_sweep_spec fuel h L Hrep HL Hok Hfuel)
    as (h' & L' & Hrun & _ & _ & Hnew & _).
  exists h'. split; [done|]. intros a Ha.
  destruct (Hnew a Ha) as (s & r & s1 & s2 & Hs & Hcls & _ & Hscrub & Hs2).
  destruct (sweep_segment_frame _ _ _ Hcls) as (_ & Hbs1 & Hbm1).
  destruct (Hok a s Ha Hs) as (Hlay & _).
  destruct (scrub_scrubbed _ _ _ Hscrub) as (Hbs & Hnf & Hsn & Hbytes).
  { apply (segment_layout_ext s); simpl; [done|by rewrite Hbm1|done]. }
  exists s, r, s1, s2. simpl in *. split_and!; [done..|congruence|done|done|].
  unfold scrubbed, block_contents, unmarked, marked,
    nonmoving_segment_block_count, nonmoving_segment_block_size,
    nonmoving_segment_get_block in *.
  simpl in *. by rewrite Hbs1, Hbm1 in Hbytes.
Qed.

(** C4. [nonmoving_sweep] asserts that the sweep list is empty on entry: on a
    non-empty sweep list it aborts, whatever the rest of the heap; whenever
    it returns, the sweep list was empty on entry and is empty again; and on
    a well-formed heap with an empty sweep list it does return. *)
Theorem sweep_list_empty_at_entry_and_exit fuel h :
  (sweep_list h ≠ None → nonmoving_sweep fuel h = Fatal) ∧
  (∀ h', nonmoving_sweep fuel h = Ok h' →
     sweep_list h = None ∧ sweep_list h' = None) ∧
  (∀ L, represents h L → l_sweep L = [] →
     (∀ a s, a ∈ concat (l_filled L) → segments h !! a = Some s →
        sweepable s) →
     length (concat (l_filled L)) ≤ fuel →
     ∃ h', nonmoving_sweep fuel h = Ok h').
Proof.
  split_and!.
  - intros Hne. unfold nonmoving_sweep, prepare_sweep.
    by rewrite bool_decide_eq_false_2.
  - intros h' H. unfold nonmoving_sweep, prepare_sweep in H.
    apply bind_Ok in H as (h1 & Hprep & Hloop).
    split; [|by eapply sweep_loop_returns].
    destruct (sweep_list h); [|done]. discriminate.
  - intros L Hrep HL Hok Hfuel.
    destruct (nonmoving_sweep_spec fuel h L Hrep HL Hok Hfuel)
      as (h' & _ & Hrun & _). eauto.
Qed.

(** C3. Partition completeness: after [nonmoving_sweep] on a well-formed heap
    whose filled segments are sweepable, the heap is well formed again; every
    segment that was on a filled list is on the list its verdict selects
    (the free list, or the active or filled list of its own size class) and
    on no other list; and every segment that was on an active list is
    unchanged and still on that active list. *)
Theorem sweep_partitions_filled_segments fuel h L :
  represents h L → l_sweep L = [] →
  (∀ a s, a ∈ concat (l_filled L) → segments h !! a = Some s → sweepable s) →
  length (concat (l_filled L)) ≤ fuel →
  ∃ h' L', nonmoving_sweep fuel h = Ok h' ∧ represents h' L' ∧
    (∀ a, a ∈ concat (l_filled L) →
       ∃ s r s1, segments h !! a = Some s ∧
         nonmoving_sweep_segment s = Ok (r, s1) ∧
         placed L' a (place_of r (class_of s)) ∧
         ∀ pl, placed L' a pl → pl = place_of r (class_of s)) ∧
    (∀ b c, placed L b (OnActive c) →
       placed L' b (OnActive c) ∧ segments h' !! b = segments h !! b).
Proof.
  intros Hrep HL Hok Hfuel.
  destruct (nonmoving_sweep_spec fuel h L Hrep HL Hok Hfuel)
    as (h' & L' & Hrun & Hrep' & _ & Hnew & Hold).
  exists h', L'. split_and!; [done..| |].
  - intros a Ha.
    destruct (Hnew a Ha) as (s & r & s1 & s2 & Hs & Hcls & Hpl & _).
    exists s, r, s1. split_and!; [done..|]. intros pl Hpl'.
    destruct Hrep' as (_ & _ & _ & _ & _ & Hnd). by eapply placed_unique.
  - intros b c Hb. apply Hold; [|done]. right. eauto.
Qed.

(** ** The scan, from the bitmap to the verdict *)

Lemma scan_blocks_live_partial n : ∀ i seg k,
  i ≤ k < i + n → unmarked seg k → (∀ j, i ≤ j < k → marked seg j) →
  scan_blocks n i false true seg = Ok (Returned SEGMENT_PARTIAL, set_cursors k seg).
Proof.
  induction n as [|n IH]; intros i seg k Hk Hu Hlow; [lia|]. simpl.
  destruct (decide (k = i)) as [->|Hne].
  - unfold read_bitmap. rewrite Hu. done.
  - destruct (Hlow i) as (b & Hb & Hnz); [lia|].
    unfold read_bitmap. rewrite Hb. simpl.
    apply Z.eqb_neq in Hnz. rewrite Hnz. simpl.
    apply IH; [lia|done|]. intros j Hj. apply Hlow. lia.
Qed.

Lemma scan_blocks_free_partial n : ∀ i seg k,
  i ≤ k < i + n → marked seg k → (∀ j, i ≤ j < k → unmarked seg j) →
  scan_blocks n i true false seg = Ok (Returned SEGMENT_PARTIAL, seg).
Proof.
  induction n as [|n IH]; intros i seg k Hk Hm Hlow; [lia|]. simpl.
  destruct (decide (k = i)) as [->|Hne].
  - destruct Hm as (b & Hb & Hnz). unfold read_bitmap. rewrite Hb. simpl.
    apply Z.eqb_neq in Hnz. by rewrite Hnz.
  - unfold read_bitmap. rewrite (Hlow i) by lia. simpl.
    apply (IH (S i) seg k); [lia|done|]. intros j Hj. apply Hlow. lia.
Qed.

(** Below a marked index there is a first marked index. *)
Lemma first_marked seg m :
  marked seg m →
  ∃ m', m' ≤ m ∧ marked seg m' ∧ ∀ j, j < m' → unmarked seg j.
Proof.
  intros Hm.
  assert (Hgen : ∀ d m0, m0 + d = m → (∀ j, j < m0 → unmarked seg j) →
            ∃ m', m' ≤ m ∧ marked seg m' ∧ ∀ j, j < m' → unmarked seg j).
  { induction d as [|d IH]; intros m0 Hd Hlow.
    - exists m. replace m0 with m in Hlow by lia. done.
    - destruct (lookup_lt_is_Some_2 (bitmap seg) m0) as [b Hb].
      { destruct Hm as (bm & Hbm & _). apply lookup_lt_Some in Hbm. lia. }
      destruct (decide (b = 0%Z)) as [->|Hnz].
      + apply (IH (S m0)); [lia|]. intros j Hj.
        destruct (decide (j = m0)) as [->|]; [done|]. apply Hlow. lia.
      + exists m0. split_and!; [lia| |done]. by exists b. }
  apply (Hgen m 0); [lia|]. intros j Hj. lia.
Qed.

(** A bitmap with a dead and a live block gets [SEGMENT_PARTIAL], whatever
    lies past the two. *)
Lemma sweep_segment_partial_intro seg k m :
  k < nonmoving_segment_block_count seg →
  m < nonmoving_segment_block_count seg →
  unmarked seg k → marked seg m → (∀ j, j < k → marked seg j) →
  nonmoving_sweep_segment seg = Ok (SEGMENT_PARTIAL, set_cursors k seg).
Proof.
  intros Hk Hm Hu Hmk Hlow. unfold nonmoving_sweep_segment.
  destruct (nonmoving_segment_block_count seg) as [|n]; [lia|]. simpl.
  destruct k as [|k].
  - unfold read_bitmap. rewrite Hu. simpl.
    destruct (first_marked seg m Hmk) as (m' & Hm' & Hmm' & Hlow').
    assert (m' ≠ 0) by (intros ->; by destruct (marked_unmarked seg 0)).
    rewrite (scan_blocks_free_partial n 1 _ m'); [done|lia|done|].
    intros j Hj. apply Hlow'. lia.
  - destruct (Hlow 0) as (b & Hb & Hnz); [lia|].
    unfold read_bitmap. rewrite Hb. simpl.
    apply Z.eqb_neq in Hnz. rewrite Hnz. simpl.
    rewrite (scan_blocks_live_partial n 1 seg (S k)); [done|lia|done|].
    intros j Hj. apply Hlow. lia.
Qed.

Lemma all_read_in_segment seg :
  (∀ j, j < nonmoving_segment_block_count seg → is_Some (bitmap seg !! j)) →
  bitmap_in_segment seg.
Proof.
  intros Hall. unfold bitmap_in_segment.
  destruct (nonmoving_segment_block_count seg) as [|n] eqn:Hn; [lia|].
  destruct (Hall n) as [b Hb]; [lia|]. apply lookup_lt_Some in Hb. lia.
Qed.

Lemma sweep_segment_filled_intro seg :
  0 < nonmoving_segment_block_count seg →
  (∀ j, j < nonmoving_segment_block_count seg → marked seg j) →
  nonmoving_sweep_segment seg = Ok (SEGMENT_FILLED, seg).
Proof.
  intros Hpos Hall.
  destruct (sweep_segment_total seg) as (r & seg' & Hrun).
  { apply all_read_in_segment. intros j Hj.
    destruct (Hall j Hj) as (b & -> & _). eauto. }
  { by left. }
  destruct (sweep_segment_cases _ _ _ Hrun)
    as [(-> & Hu & _)|[(-> & _ & _ & ->)|(-> & k & m & Hk & _ & Hu & _)]].
  - destruct (marked_unmarked seg 0); auto.
  - done.
  - destruct (marked_unmarked seg k); auto.
Qed.

Lemma sweep_segment_free_intro seg :
  (∀ j, j < nonmoving_segment_block_count seg → unmarked seg j) →
  (nonmoving_segment_block_count seg = 0 →
     next_free seg = 0 ∧ next_free_snap seg = 0) →
  nonmoving_sweep_segment seg =
    Ok (SEGMENT_FREE,
        if decide (nonmoving_segment_block_count seg = 0)
        then seg else set_cursors 0 seg).
Proof.
  intros Hall Hcur.
  destruct (sweep_segment_total seg) as (r & seg' & Hrun).
  { apply all_read_in_segment. intros j Hj. rewrite (Hall j Hj). eauto. }
  { unfold cursors_clear.
    destruct (nonmoving_segment_block_count seg); [right; auto|left; lia]. }
  destruct (sweep_segment_cases _ _ _ Hrun)
    as [(-> & _ & _ & _ & ->)|[(-> & Hpos & Hm & _)
       |(-> & k & m & _ & Hm & _ & Hmk & _)]].
  - done.
  - destruct (marked_unmarked seg 0); auto.
  - destruct (marked_unmarked seg m); auto.
Qed.

Lemma sweep_segment_free_fixed seg :
  (∀ j, j < nonmoving_segment_block_count seg → unmarked seg j) →
  next_free seg = 0 → next_free_snap seg = 0 →
  nonmoving_sweep_segment seg = Ok (SEGMENT_FREE, seg).
Proof.
  intros Hall Hnf Hsn. rewrite (sweep_segment_free_intro seg) by done.
  case_decide; [done|]. destruct seg. simpl in *. by subst.
Qed.

Lemma sweep_segment_fixed seg r seg' :
  nonmoving_sweep_segment seg = Ok (r, seg') →
  nonmoving_sweep_segment seg' = Ok (r, seg').
Proof.
  intros Hrun.
  destruct (sweep_segment_cases _ _ _ Hrun)
    as [(-> & Hall & Hnf & Hsn & Heq)|[(-> & _ & _ & ->)
       |(-> & k & m & Hk & Hm & Hu & Hmk & Hlow & ->)]].
  - apply sweep_segment_free_fixed; [|done..]. subst seg'. by case_decide.
  - done.
  - by rewrite (sweep_segment_partial_intro (set_cursors k seg) k m).
Qed.

(** Scanning a segment a second time changes nothing: the verdict is the
    same and the cursors the first scan left are the ones the second scan
    computes. *)
Theorem sweep_segment_idempotent seg r seg' :
  nonmoving_sweep_segment seg = Ok (r, seg') →
  nonmoving_sweep_segment seg' = Ok (r, seg').
Proof. apply sweep_segment_fixed. Qed.

Lemma sweep_segment_bitmap_ext seg r seg' bm :
  nonmoving_sweep_segment seg = Ok (r, seg') →
  (∀ i, i < nonmoving_segment_block_count seg → bm !! i = bitmap seg !! i) →
  nonmoving_sweep_segment (set_bitmap bm seg) = Ok (r, set_bitmap bm seg').
Proof.
  intros Hrun Hsame.
  assert (Hu : ∀ i, i < nonmoving_segment_block_count seg →
            unmarked seg i → unmarked (set_bitmap bm seg) i).
  { intros i Hi. unfold unmarked. simpl. by rewrite Hsame. }
  assert (Hm : ∀ i, i < nonmoving_segment_block_count seg →
            marked seg i → marked (set_bitmap bm seg) i).
  { intros i Hi. unfold marked. simpl. by rewrite Hsame. }
  destruct (sweep_segment_cases _ _ _ Hrun)
    as [(-> & Hall & _ & _ & ->)|[(-> & Hpos & Hall & ->)
       |(-> & k & m & Hk & Hmlt & Huk & Hmk & Hlow & ->)]].
  - rewrite (sweep_segment_free_intro (set_bitmap bm seg)).
    + f_equal. f_equal.
      change (nonmoving_segment_block_count (set_bitmap bm seg))
        with (nonmoving_segment_block_count seg).
      by case_decide.
    + intros j Hj. by apply Hu, Hall.
    + intros Hz. apply sweep_segment_free_cursors in Hrun as [Hnf Hsn].
      change (nonmoving_segment_block_count (set_bitmap bm seg))
        with (nonmoving_segment_block_count seg) in Hz.
      revert Hnf Hsn. by case_decide.
  - apply sweep_segment_filled_intro; [done|]. intros j Hj. by apply Hm, Hall.
  - apply (sweep_segment_partial_intro (set_bitmap bm seg) k m); auto.
    intros j Hj. apply Hm; [lia|]. by apply Hlow.
Qed.

(** The scan looks at the mark entries of the blocks and at nothing else in
    the segment's bytes: replacing the bytes by others that agree on those
    entries gives the same verdict and the same cursors. *)
Theorem sweep_segment_reads_marks_only seg r seg' bm :
  nonmoving_sweep_segment seg = Ok (r, seg') →
  (∀ i, i < nonmoving_segment_block_count seg → bm !! i = bitmap seg !! i) →
  nonmoving_sweep_segment (set_bitmap bm seg) = Ok (r, set_bitmap bm seg').
Proof. apply sweep_segment_bitmap_ext. Qed.

Lemma scan_blocks_not_fatal n : ∀ i ff fl seg,
  scan_blocks n i ff fl seg ≠ Fatal.
Proof.
  induction n as [|n IH]; intros i ff fl seg; simpl; [done|].
  unfold read_bitmap. destruct (bitmap seg !! i) as [b|]; simpl; [|done].
  destruct (negb (b =? 0)%Z), ff, fl; simpl; first [done | apply IH].
Qed.

(** The scan aborts in exactly one situation: the segment has no block and
    one of its cursors is not zero.  A segment with a block never trips the
    two assertions, whatever its cursors were. *)
Theorem sweep_segment_aborts_iff seg :
  nonmoving_sweep_segment seg = Fatal ↔
  nonmoving_segment_block_count seg = 0 ∧
  ¬ (next_free seg = 0 ∧ next_free_snap seg = 0).
Proof.
  unfold nonmoving_sweep_segment. split.
  - destruct (nonmoving_segment_block_count seg) as [|n] eqn:Hn.
    + simpl. intros H. split; [done|]. intros [Hnf Hsn].
      rewrite Hnf, Hsn in H. done.
    + intros H. exfalso.
      destruct (scan_blocks (S n) 0 false false seg) as [[e s1]| | |] eqn:Hscan;
        simpl in H; try done; [|by eapply scan_blocks_not_fatal].
      simpl in Hscan. apply bind_Ok in Hscan as (b & Hb & Hscan).
      destruct (read_bitmap_cases _ _ _ Hb) as [[-> Hu]|[Hnz Hm]].
      * simpl in Hscan. apply scan_blocks_free in Hscan as [-> [[-> _]|[-> _]]];
          simpl in H; done.
      * apply Z.eqb_neq in Hnz. rewrite Hnz in Hscan. simpl in Hscan.
        apply scan_blocks_live in Hscan as [(-> & _)|(-> & _)]; simpl in H; done.
  - intros [-> Hcur]. simpl.
    destruct (next_free seg =? 0) eqn:E1; simpl; [|done].
    destruct (next_free_snap seg =? 0) eqn:E2; simpl; [|done].
    apply Nat.eqb_eq in E1, E2. by destruct Hcur.
Qed.

(** Scrubbing does not disturb the classification: scanning the segment
    again after the scan and the scrubbing of its verdict returns the same
    verdict and leaves the segment as the scrubbing left it. *)
Theorem scrub_keeps_verdict seg r s1 s2 :
  segment_layout seg →
  nonmoving_sweep_segment seg = Ok (r, s1) →
  scrub r s1 = Ok s2 →
  nonmoving_sweep_segment s2 = Ok (r, s2).
Proof.
  intros Hlay Hrun Hscrub.
  destruct (sweep_segment_frame _ _ _ Hrun) as (_ & Hbs1 & Hbm1).
  assert (Hlay1 : segment_layout s1).
  { apply (segment_layout_ext seg); [done|by rewrite Hbm1|done]. }
  destruct (scrub_ok r s1) as (s2' & Hscrub' & Hl & Hnf & Hsn & Hbs & Hlen);
    [done|].
  rewrite Hscrub in Hscrub'. injection Hscrub' as <-.
  destruct (scrub_scrubbed _ _ _ Hscrub Hlay1) as (_ & _ & _ & Hbytes).
  assert (Hs2 : s2 = set_bitmap (bitmap s2) s1).
  { destruct s2, s1. simpl in *. by subst. }
  pose proof (sweep_segment_fixed _ _ _ Hrun) as Hidem.
  assert (Hmarks : ∀ i, i < nonmoving_segment_block_count s1 →
            bitmap s2 !! i = bitmap s1 !! i).
  { intros i Hi. unfold scrubbed in Hbytes.
    destruct r, DEBUG_sanity; try (by rewrite Hbytes).
    - rewrite Hbytes.
      destruct (sweep_segment_cases _ _ _ Hidem)
        as [(_ & Hall & _)|[(? & _)|(? & _)]]; [|done..].
      rewrite (Hall i Hi). apply lookup_replicate_2.
      apply lookup_lt_is_Some. rewrite (Hall i Hi). eauto.
    - by apply Hbytes. }
  rewrite Hs2. by apply sweep_segment_bitmap_ext.
Qed.

(** ** What the sweep leaves alone *)

Lemma segments_related_refl R m :
  (∀ s, R s s) → segments_related R m m.
Proof. intros HR b. destruct (m !! b); constructor. done. Qed.

Lemma segments_related_trans R m1 m2 m3 :
  (∀ s1 s2 s3, R s1 s2 → R s2 s3 → R s1 s3) →
  segments_related R m1 m2 → segments_related R m2 m3 →
  segments_related R m1 m3.
Proof.
  intros HR H12 H23 b. specialize (H12 b). specialize (H23 b).
  destruct H12 as [s1 s2 H12|]; inversion H23; subst; constructor. eauto.
Qed.

Lemma segments_related_insert R m a s s' :
  (∀ x, R x x) → m !! a = Some s → R s s' →
  segments_related R m (<[a := s']> m).
Proof.
  intros HR Hs Hss b. destruct (decide (b = a)) as [->|Hne].
  - rewrite lookup_insert_eq, Hs. by constructor.
  - rewrite lookup_insert_ne by done. destruct (m !! b); constructor. done.
Qed.

Lemma segments_related_mono (R R' : nonmoving_segment → nonmoving_segment → Prop) m m' :
  (∀ s s', R s s' → R' s s') →
  segments_related R m m' → segments_related R' m m'.
Proof. intros HR H b. destruct (H b); constructor. auto. Qed.

Lemma relinked_refl s : relinked s s.
Proof. unfold relinked. by rewrite set_link_same. Qed.

Lemma relinked_trans s1 s2 s3 : relinked s1 s2 → relinked s2 s3 → relinked s1 s3.
Proof. unfold relinked. intros H12 H23. rewrite H23, H12. done. Qed.

Lemma relinked_set_link p s : relinked s (set_link p s).
Proof. done. Qed.

Lemma kept_refl s : kept s s.
Proof. by split_and!. Qed.

Lemma kept_trans s1 s2 s3 : kept s1 s2 → kept s2 s3 → kept s1 s3.
Proof.
  intros (? & ? & H12) (? & ? & H23). split_and!; [congruence..|].
  intros Hd. rewrite H23, H12; done.
Qed.

Lemma relinked_kept s s' : relinked s s' → kept s s'.
Proof. intros ->. by split_and!. Qed.

Lemma heap_kept_refl h : heap_kept h h.
Proof. split; [|done]. apply segments_related_refl, kept_refl. Qed.

Lemma heap_kept_trans h1 h2 h3 :
  heap_kept h1 h2 → heap_kept h2 h3 → heap_kept h1 h3.
Proof.
  intros [H12 L12] [H23 L23]. split; [|congruence].
  eapply segments_related_trans; [apply kept_trans|done..].
Qed.

Lemma deref_Ok h a s : deref h a = Ok s → segments h !! a = Some s.
Proof. unfold deref. destruct (segments h !! a); [|done]. by intros [= ->]. Qed.

Lemma get_allocator_Ok h idx alloc :
  get_allocator h idx = Ok alloc →
  (0 ≤ idx)%Z ∧ allocators h !! Z.to_nat idx = Some alloc.
Proof.
  unfold get_allocator. case_decide; [|done].
  destruct (allocators h !! Z.to_nat idx); [|done]. by intros [= ->].
Qed.

(** One iteration of [prepare_sweep] writes a filled pointer, the sweep-list
    head and at most one link. *)
Lemma prepare_sweep_allocator_frame fuel idx h h' :
  prepare_sweep_allocator fuel idx h = Ok h' →
  free h' = free h ∧
  active <$> allocators h' = active <$> allocators h ∧
  segments_related relinked (segments h) (segments h').
Proof.
  unfold prepare_sweep_allocator. intros H.
  apply bind_Ok in H as (alloc & Halloc & H).
  apply get_allocator_Ok in Halloc as [_ Ha]. rewrite Nat2Z.id in Ha.
  assert (Hact : active <$> <[idx := {| filled := None; active := active alloc |}]>
                   (allocators h) = active <$> allocators h).
  { rewrite list_fmap_insert. apply list_insert_id.
    by rewrite list_lookup_fmap, Ha. }
  destruct (filled alloc) as [hd|].
  - apply bind_Ok in H as (last & _ & H).
    apply bind_Ok in H as (s & Hs & H). apply deref_Ok in Hs. simpl in Hs.
    injection H as <-. simpl. rewrite Nat2Z.id. split_and!; [done..|].
    eapply segments_related_insert; [apply relinked_refl|done|].
    by unfold relinked.
  - injection H as <-. simpl. rewrite Nat2Z.id. split_and!; [done..|].
    apply segments_related_refl, relinked_refl.
Qed.

Lemma prepare_sweep_loop_frame fuel n : ∀ idx h h',
  prepare_sweep_loop fuel n idx h = Ok h' →
  free h' = free h ∧
  active <$> allocators h' = active <$> allocators h ∧
  segments_related relinked (segments h) (segments h').
Proof.
  induction n as [|n IH]; intros idx h h' H; simpl in H.
  - injection H as <-. split_and!; [done..|].
    apply segments_related_refl, relinked_refl.
  - apply bind_Ok in H as (h1 & H1 & H).
    apply prepare_sweep_allocator_frame in H1 as (Hf1 & Ha1 & Hs1).
    apply IH in H as (Hf & Ha & Hs). split_and!; [congruence..|].
    eapply segments_related_trans; [apply relinked_trans|done..].
Qed.

(** [prepare_sweep] only re-links: whenever it returns, the free list head
    and every active list head are what they were, and every segment is what
    it was except possibly for its link; no segment appears or disappears. *)
Theorem prepare_sweep_only_relinks fuel h h' :
  prepare_sweep fuel h = Ok h' →
  free h' = free h ∧
  active <$> allocators h' = active <$> allocators h ∧
  segments_related relinked (segments h) (segments h').
Proof.
  unfold prepare_sweep. intros H. apply bind_Ok in H as (_ & _ & H).
  by apply prepare_sweep_loop_frame in H.
Qed.

Lemma push_free_segment_kept seg h h' :
  push_free_segment seg h = Ok h' → heap_kept h h'.
Proof.
  unfold push_free_segment. intros H.
  apply bind_Ok in H as (s & Hs%deref_Ok & H). injection H as <-.
  split; [|done]. simpl.
  eapply segments_related_insert; [apply kept_refl|done|].
  apply relinked_kept. by unfold relinked.
Qed.

Lemma push_active_segment_kept seg h h' :
  push_active_segment seg h = Ok h' → heap_kept h h'.
Proof.
  unfold push_active_segment. intros H.
  apply bind_Ok in H as (s & Hs%deref_Ok & H).
  apply bind_Ok in H as (alloc & _ & H). injection H as <-.
  split; simpl; [|by rewrite length_insert].
  eapply segments_related_insert; [apply kept_refl|done|].
  apply relinked_kept. by unfold relinked.
Qed.

Lemma push_filled_segment_kept seg h h' :
  push_filled_segment seg h = Ok h' → heap_kept h h'.
Proof.
  unfold push_filled_segment. intros H.
  apply bind_Ok in H as (s & Hs%deref_Ok & H).
  apply bind_Ok in H as (alloc & _ & H). injection H as <-.
  split; simpl; [|by rewrite length_insert].
  eapply segments_related_insert; [apply kept_refl|done|].
  apply relinked_kept. by unfold relinked.
Qed.

Lemma clear_free_blocks_loop_size n : ∀ p_idx bs seg seg',
  clear_free_blocks_loop n p_idx bs seg = Ok seg' →
  block_size seg' = block_size seg ∧
  length (bitmap seg') = length (bitmap seg).
Proof.
  induction n as [|n IH]; intros p_idx bs seg seg' H; simpl in H.
  - by injection H as <-.
  - apply bind_Ok in H as (bit & _ & H).
    apply bind_Ok in H as (s1 & Hs1 & H). apply IH in H as [Hb Hl].
    destruct (bit =? 0)%Z.
    + apply bind_Ok in Hs1 as (bm & Hbm & Hs1). injection Hs1 as <-.
      apply memset0_length in Hbm. simpl in *. split; congruence.
    + injection Hs1 as <-. done.
Qed.

Lemma scrub_in_place_kept (f : nonmoving_segment → result nonmoving_segment)
    seg h h' :
  (∀ s s', f s = Ok s' →
     block_size s' = block_size s ∧ length (bitmap s') = length (bitmap s)) →
  IF_DEBUG_sanity (in_place f seg) h = Ok h' → heap_kept h h'.
Proof.
  intros Hf. unfold IF_DEBUG_sanity. destruct DEBUG_sanity eqn:Hd.
  - unfold in_place. intros H.
    apply bind_Ok in H as (s & Hs%deref_Ok & H).
    apply bind_Ok in H as (s' & Hs' & H). injection H as <-.
    split; [|done]. simpl.
    eapply segments_related_insert; [apply kept_refl|done|].
    destruct (Hf _ _ Hs') as [? ?]. unfold kept. rewrite Hd. by split_and!.
  - intros [= <-]. apply heap_kept_refl.
Qed.

Lemma sweep_step_kept seg h h' :
  sweep_step seg h = Ok h' → heap_kept h h'.
Proof.
  unfold sweep_step. intros H.
  apply bind_Ok in H as (s & Hs%deref_Ok & H).
  apply bind_Ok in H as ([r s1] & Hcls & H).
  destruct (sweep_segment_frame _ _ _ Hcls) as (_ & Hbs & Hbm).
  assert (H0 : heap_kept h (store seg s1 (set_sweep_list (link s) h))).
  { split; [|done]. simpl.
    eapply segments_related_insert; [apply kept_refl|done|].
    unfold kept. rewrite Hbs, Hbm. by split_and!. }
  apply (heap_kept_trans _ _ _ H0). destruct r.
  - apply bind_Ok in H as (h1 & H1 & H).
    apply (push_free_segment_kept seg) in H1.
    apply (heap_kept_trans _ _ _ H1).
    eapply scrub_in_place_kept; [|done]. intros x x' Hx.
    rewrite clear_segment_zeroes in Hx. injection Hx as <-. simpl.
    by rewrite length_replicate.
  - apply bind_Ok in H as (h1 & H1 & H).
    apply (push_active_segment_kept seg) in H1.
    apply (heap_kept_trans _ _ _ H1).
    eapply scrub_in_place_kept; [|done]. intros x x' Hx.
    by apply clear_free_blocks_loop_size in Hx.
  - by apply (push_filled_segment_kept seg).
Qed.

Lemma sweep_loop_kept fuel : ∀ h h',
  sweep_loop fuel h = Ok h' → heap_kept h h'.
Proof.
  induction fuel as [|fuel IH]; intros h h'; simpl;
    destruct (sweep_list h) as [seg|]; try discriminate.
  - intros [= <-]. apply heap_kept_refl.
  - intros H. apply bind_Ok in H as (h1 & H1%sweep_step_kept & H%IH).
    by eapply heap_kept_trans.
  - intros [= <-]. apply heap_kept_refl.
Qed.

Lemma nonmoving_sweep_kept fuel h h' :
  nonmoving_sweep fuel h = Ok h' → heap_kept h h'.
Proof.
  unfold nonmoving_sweep, prepare_sweep. intros H.
  apply bind_Ok in H as (h1 & H1 & H%sweep_loop_kept).
  apply bind_Ok in H1 as (_ & _ & H1).
  refine (heap_kept_trans _ _ _ _ H). split.
  - apply prepare_sweep_loop_frame in H1 as (_ & _ & H1).
    eapply segments_related_mono; [apply relinked_kept|done].
  - apply prepare_sweep_loop_frame in H1 as (_ & Ha & _).
    apply (f_equal length) in Ha. by rewrite !length_fmap in Ha.
Qed.

(** The sweep neither creates nor releases nor resizes a segment: whenever
    [nonmoving_sweep] returns, on any heap, the same addresses hold segments,
    each with the size class and the size it had, and there are as many
    allocators as before. *)
Theorem nonmoving_sweep_keeps_segments fuel h h' :
  nonmoving_sweep fuel h = Ok h' →
  dom (segments h') = dom (segments h) ∧
  length (allocators h') = length (allocators h) ∧
  ∀ b s', segments h' !! b = Some s' →
    ∃ s, segments h !! b = Some s ∧ block_size s' = block_size s ∧
         length (bitmap s') = length (bitmap s).
Proof.
  intros [Hrel Hlen]%nonmoving_sweep_kept. split_and!; [|done|].
  - apply set_eq. intros b. rewrite !elem_of_dom.
    destruct (Hrel b); split; intros [? ?]; done || eauto.
  - intros b s' Hs'. specialize (Hrel b). rewrite Hs' in Hrel.
    inversion Hrel as [s ? (? & ? & _)|]; subst. eauto.
Qed.

(** Outside a diagnostics build the sweep writes no byte of any segment:
    whenever [nonmoving_sweep] returns, on any heap, every segment has the
    bytes (marks and blocks) it had. *)
Theorem release_sweep_writes_no_byte fuel h h' b s s' :
  DEBUG_sanity = false →
  nonmoving_sweep fuel h = Ok h' →
  segments h !! b = Some s → segments h' !! b = Some s' →
  bitmap s' = bitmap s.
Proof.
  intros Hd [Hrel _]%nonmoving_sweep_kept Hs Hs'. specialize (Hrel b).
  rewrite Hs, Hs' in Hrel. inversion Hrel as [? ? (_ & _ & Hb)|]; subst. auto.
Qed.

(** ** A pass without filled segments *)

Lemma prepare_sweep_loop_noop fuel n : ∀ idx h,
  idx + n ≤ length (allocators h) →
  Forall (λ a, filled a = None) (allocators h) →
  prepare_sweep_loop fuel n idx h = Ok h.
Proof.
  induction n as [|n IH]; intros idx h Hlen Hnone; simpl; [done|].
  destruct (lookup_lt_is_Some_2 (allocators h) idx) as [alloc Ha]; [lia|].
  pose proof (Forall_lookup_1 _ _ _ _ Hnone Ha) as Hf. simpl in Hf.
  unfold prepare_sweep_allocator, get_allocator.
  case_decide; [|lia]. rewrite Nat2Z.id, Ha. simpl. rewrite Hf.
  assert (Heq : set_allocator (Z.of_nat idx)
                  {| filled := None; active := active alloc |} h = h).
  { unfold set_allocator, set_allocators. rewrite Nat2Z.id.
    rewrite list_insert_id; [by destruct h|].
    rewrite Ha. f_equal. destruct alloc. simpl in *. by subst. }
  rewrite Heq. simpl. apply IH; [lia|done].
Qed.

(** With nothing on any filled list and an empty sweep list the whole pass is
    a no-op: [nonmoving_sweep] returns the heap it was given, for any fuel. *)
Theorem nonmoving_sweep_nothing_filled fuel h :
  sweep_list h = None →
  NONMOVING_ALLOCA_CNT ≤ length (allocators h) →
  Forall (λ a, filled a = None) (allocators h) →
  nonmoving_sweep fuel h = Ok h.
Proof.
  intros Hsl Hlen Hnone. unfold nonmoving_sweep, prepare_sweep.
  rewrite Hsl. simpl. rewrite prepare_sweep_loop_noop by (simpl; done || lia).
  simpl. destruct fuel; simpl; by rewrite Hsl.
Qed.

(** ** The push operations *)

(** [push_free_segment] puts the segment at the front of the free list and
    leaves every list that does not contain it as it was. *)
Theorem push_free_segment_front seg h s l :
  segments h !! seg = Some s →
  chain (segments h) (free h) l → seg ∉ l →
  ∃ h', push_free_segment seg h = Ok h' ∧
    chain (segments h') (free h') (seg :: l) ∧
    allocators h' = allocators h ∧ sweep_list h' = sweep_list h ∧
    (∀ p l0, chain (segments h) p l0 → seg ∉ l0 →
       chain (segments h') p l0).
Proof.
  intros Hs Hc Hnin. unfold push_free_segment, deref. rewrite Hs. simpl.
  eexists. split; [done|].
  split; [by apply (chain_push _ (free h))|].
  split; [done|]. split; [done|].
  intros p l0 Hc0 Hnin0. apply (chain_ext (segments h)); [done|].
  intros b Hb. apply lookup_insert_ne. by intros <-.
Qed.

(** [push_active_segment] puts the segment at the front of the active list
    of the allocator its size class selects; that allocator's filled list,
    the other allocators and every list that does not contain the segment
    stay as they were. *)
Theorem push_active_segment_front seg h s alloc l :
  segments h !! seg = Some s →
  (0 ≤ block_size s - NONMOVING_ALLOCA0)%Z →
  allocators h !! class_of s = Some alloc →
  chain (segments h) (active alloc) l → seg ∉ l →
  ∃ h' alloc', push_active_segment seg h = Ok h' ∧
    allocators h' !! class_of s = Some alloc' ∧
    chain (segments h') (active alloc') (seg :: l) ∧
    filled alloc' = filled alloc ∧
    (∀ j, j ≠ class_of s → allocators h' !! j = allocators h !! j) ∧
    free h' = free h ∧ sweep_list h' = sweep_list h ∧
    (∀ p l0, chain (segments h) p l0 → seg ∉ l0 →
       chain (segments h') p l0).
Proof.
  intros Hs Hpos Ha Hc Hnin. unfold push_active_segment, deref.
  rewrite Hs. simpl. unfold get_allocator. case_decide; [|lia].
  fold (class_of s). rewrite Ha. simpl.
  eexists _, {| filled := filled alloc; active := Some seg |}.
  split; [done|].
  split; [apply list_lookup_insert_eq; by eapply lookup_lt_Some|].
  split; [by apply (chain_push _ (active alloc))|].
  split; [done|].
  split; [intros j Hj; by apply list_lookup_insert_ne|].
  split; [done|]. split; [done|].
  intros p l0 Hc0 Hnin0. apply (chain_ext (segments h)); [done|].
  intros b Hb. apply lookup_insert_ne. by intros <-.
Qed.

(** [push_filled_segment] does the same for the filled list. *)
Theorem push_filled_segment_front seg h s alloc l :
  segments h !! seg = Some s →
  (0 ≤ block_size s - NONMOVING_ALLOCA0)%Z →
  allocators h !! class_of s = Some alloc →
  chain (segments h) (filled alloc) l → seg ∉ l →
  ∃ h' alloc', push_filled_segment seg h = Ok h' ∧
    allocators h' !! class_of s = Some alloc' ∧
    chain (segments h') (filled alloc') (seg :: l) ∧
    active alloc' = active alloc ∧
    (∀ j, j ≠ class_of s → allocators h' !! j = allocators h !! j) ∧
    free h' = free h ∧ sweep_list h' = sweep_list h ∧
    (∀ p l0, chain (segments h) p l0 → seg ∉ l0 →
       chain (segments h') p l0).
Proof.
  intros Hs Hpos Ha Hc Hnin. unfold push_filled_segment, deref.
  rewrite Hs. simpl. unfold get_allocator. case_decide; [|lia].
  fold (class_of s). rewrite Ha. simpl.
  eexists _, {| filled := Some seg; active := active alloc |}.
  split; [done|].
  split; [apply list_lookup_insert_eq; by eapply lookup_lt_Some|].
  split; [by apply (chain_push _ (filled alloc))|].
  split; [done|].
  split; [intros j Hj; by apply list_lookup_insert_ne|].
  split; [done|]. split; [done|].
  intros p l0 Hc0 Hnin0. apply (chain_ext (segments h)); [done|].
  intros b Hb. apply lookup_insert_ne. by intros <-.
Qed.

Lemma chain_follow m m' p l1 a l2 : ∀ l',
  chain m p (l1 ++ a :: l2) →
  (∀ b, b ∈ l1 → m' !! b = m !! b) →
  chain m' p l' →
  ∃ rest, l' = l1 ++ rest ∧ chain m' (Some a) rest.
Proof.
  revert p. induction l1 as [|b l1 IH]; intros p l' Hc Hsame Hc'.
  - destruct Hc as (-> & _). by exists l'.
  - destruct Hc as (-> & sb & Hsb & Hrest).
    destruct l' as [|b' l'']; [done|].
    destruct Hc' as ([= <-] & sb' & Hsb' & Hrest').
    rewrite Hsame, Hsb in Hsb' by apply list_elem_of_here.
    injection Hsb' as <-.
    destruct (IH _ l'' Hrest) as (rest & -> & Hc''); [|done|].
    + intros x Hx. apply Hsame. by apply list_elem_of_further.
    + by exists rest.
Qed.

(** Pushing a segment onto a list it is already on closes a cycle: after
    [push_free_segment] of a segment of the free list, following the links
    from the free list head never reaches NULL. *)
Theorem push_free_segment_again_cycles seg h s l :
  segments h !! seg = Some s →
  chain (segments h) (free h) l → seg ∈ l →
  ∃ h', push_free_segment seg h = Ok h' ∧
        ∀ l', ¬ chain (segments h') (free h') l'.
Proof.
  intros Hs Hc Hin. unfold push_free_segment, deref. rewrite Hs. simpl.
  eexists. split; [done|]. simpl. intros l' Hc'.
  pose proof (chain_NoDup _ _ _ Hc) as Hnd.
  apply list_elem_of_split in Hin as (l1 & l2 & ->).
  apply NoDup_app in Hnd as (_ & Hdisj & _).
  pose proof Hc' as Hc0.
  destruct l' as [|x l'']; [done|].
  destruct Hc' as ([= <-] & s' & Hs' & Hrest).
  rewrite lookup_insert_eq in Hs'. injection Hs' as <-. simpl in Hrest.
  assert (Hsame : ∀ b, b ∈ l1 →
            <[seg := set_link (free h) s]> (segments h) !! b
            = segments h !! b).
  { intros b Hb. apply lookup_insert_ne. intros <-.
    apply (Hdisj seg Hb), list_elem_of_here. }
  destruct (chain_follow _ _ _ _ _ _ _ Hc Hsame Hrest)
    as (rest & -> & Hc'').
  pose proof (chain_functional _ _ _ _ Hc0 Hc'') as Heq.
  apply (f_equal length) in Heq. simpl in Heq. rewrite length_app in Heq. lia.
Qed.

(** A segment that is not classified [SEGMENT_FREE] and whose size class
    does not name an allocator sends the driver outside the allocator array:
    the iteration has no defined result. *)
Theorem sweep_step_class_out_of_range seg h s r s1 :
  segments h !! seg = Some s →
  nonmoving_sweep_segment s = Ok (r, s1) → r ≠ SEGMENT_FREE →
  ¬ (0 ≤ block_size s - NONMOVING_ALLOCA0
       < Z.of_nat (length (allocators h)))%Z →
  sweep_step seg h = Undefined.
Proof.
  intros Hs Hcls Hr Hout. unfold sweep_step, deref. rewrite Hs. simpl.
  rewrite Hcls. simpl.
  destruct (sweep_segment_frame _ _ _ Hcls) as (_ & Hbs & _).
  assert (Hget : ∀ h0, allocators h0 = allocators h →
            get_allocator h0 (block_size s1 - NONMOVING_ALLOCA0) = Undefined).
  { intros h0 Hh0. unfold get_allocator. rewrite Hbs, Hh0.
    case_decide; [|done]. rewrite lookup_ge_None_2; [done|]. lia. }
  destruct r; [done| |].
  - unfold push_active_segment, deref, store. simpl.
    rewrite lookup_insert_eq. simpl. by rewrite Hget.
  - unfold push_filled_segment, deref, store. simpl.
    rewrite lookup_insert_eq. simpl. by rewrite Hget.
Qed.

(** ** Scrubbing, edge cases *)

Lemma clear_free_blocks_loop_all_live n : ∀ p_idx bs seg,
  (∀ i, p_idx ≤ i < p_idx + n → marked seg i) →
  clear_free_blocks_loop n p_idx bs seg = Ok seg.
Proof.
  induction n as [|n IH]; intros p_idx bs seg Hall; simpl; [done|].
  destruct (Hall p_idx) as (b & Hb & Hnz); [lia|].
  unfold nonmoving_get_mark_bit, read_bitmap. rewrite Hb. simpl.
  apply Z.eqb_neq in Hnz. rewrite Hnz. simpl. apply IH.
  intros i Hi. apply Hall. lia.
Qed.

(** On a segment without a dead block [clear_segment_free_blocks] writes
    nothing, wherever the layout puts the blocks. *)
Theorem clear_segment_free_blocks_all_live seg :
  (∀ i, i < nonmoving_segment_block_count seg → marked seg i) →
  clear_segment_free_blocks seg = Ok seg.
Proof.
  intros Hall. apply clear_free_blocks_loop_all_live.
  intros i Hi. apply Hall. lia.
Qed.

(** ** A filled list that does not end *)

Lemma last_segment_cyclic h (cyc : list nat) :
  (∀ b, b ∈ cyc →
     ∃ s c, segments h !! b = Some s ∧ link s = Some c ∧ c ∈ cyc) →
  ∀ fuel a, a ∈ cyc → last_segment fuel h a = OutOfFuel.
Proof.
  intros Hclosed. induction fuel as [|fuel IH]; intros a Ha; simpl; [done|].
  destruct (Hclosed a Ha) as (s & c & Hs & Hl & Hc).
  unfold deref. rewrite Hs. simpl. rewrite Hl. by apply IH.
Qed.

Lemma prepare_sweep_loop_cyclic fuel idx h alloc a (cyc : list nat) n : ∀ i,
  i ≤ idx < i + n →
  (∀ j, j < idx → ∃ al, allocators h !! j = Some al ∧ filled al = None) →
  allocators h !! idx = Some alloc → filled alloc = Some a → a ∈ cyc →
  (∀ b, b ∈ cyc →
     ∃ s c, segments h !! b = Some s ∧ link s = Some c ∧ c ∈ cyc) →
  prepare_sweep_loop fuel n i h = OutOfFuel.
Proof.
  intros i Hi Hbefore Ha Hf Hin Hclosed. revert i Hi.
  induction n as [|n IH]; intros i Hi; [lia|]. simpl.
  unfold prepare_sweep_allocator, get_allocator.
  case_decide; [|lia]. rewrite Nat2Z.id.
  destruct (decide (i = idx)) as [->|Hne].
  - rewrite Ha. simpl. rewrite Hf.
    rewrite (last_segment_cyclic _ cyc); [done|done|done].
  - destruct (Hbefore i) as (al & Hal & Hnone); [lia|].
    rewrite Hal. simpl. rewrite Hnone.
    assert (Heq : set_allocator (Z.of_nat i)
                    {| filled := None; active := active al |} h = h).
    { unfold set_allocator, set_allocators. rewrite Nat2Z.id.
      rewrite list_insert_id; [by destruct h|].
      rewrite Hal. f_equal. destruct al. simpl in *. by subst. }
    rewrite Heq. simpl. apply IH. lia.
Qed.

(** A filled list whose links run in a cycle keeps [prepare_sweep] walking
    for ever: no amount of fuel lets it return.  (The earlier allocators have
    empty filled lists here, so that the walk starts on the heap as
    given.) *)
Theorem prepare_sweep_cyclic_filled_list fuel idx h alloc a (cyc : list nat) :
  sweep_list h = None → idx < NONMOVING_ALLOCA_CNT →
  (∀ j, j < idx → ∃ al, allocators h !! j = Some al ∧ filled al = None) →
  allocators h !! idx = Some alloc → filled alloc = Some a → a ∈ cyc →
  (∀ b, b ∈ cyc →
     ∃ s c, segments h !! b = Some s ∧ link s = Some c ∧ c ∈ cyc) →
  prepare_sweep fuel h = OutOfFuel.
Proof.
  intros Hsl Hidx Hbefore Ha Hf Hin Hclosed. unfold prepare_sweep.
  rewrite Hsl. simpl.
  apply (prepare_sweep_loop_cyclic fuel idx h alloc a cyc); auto. lia.
Qed.

(** ** The order of the lists after the loop *)

Lemma filter_ext_elem (P Q : nat → Prop) `{!∀ x, Decision (P x)}
    `{!∀ x, Decision (Q x)} (l : list nat) :
  (∀ x, x ∈ l → (P x ↔ Q x)) → filter P l = filter Q l.
Proof.
  induction l as [|x l IH]; intros Hext; [done|].
  rewrite !filter_cons.
  rewrite IH by (intros y Hy; apply Hext; by apply list_elem_of_further).
  destruct (Hext x) as [H1 H2]; [apply list_elem_of_here|].
  destruct (decide (P x)), (decide (Q x)); tauto.
Qed.

Lemma reverse_filter_cons (P : nat → Prop) `{!∀ x, Decision (P x)}
    a rest (old : list nat) :
  reverse (filter P (a :: rest)) ++ old =
  reverse (filter P rest) ++ (if decide (P a) then a :: old else old).
Proof.
  rewrite filter_cons. destruct (decide (P a)); [|done].
  by rewrite reverse_cons, <- (assoc_L (++)).
Qed.

(** The loop of [nonmoving_sweep] re-files in sweep order, each segment to
    the front of its list. *)
Lemma sweep_loop_order ls : ∀ fuel h L,
  represents h L → l_sweep L = ls →
  (∀ a s, a ∈ ls → segments h !! a = Some s → sweepable s) →
  length ls ≤ fuel →
  ∃ h' L', sweep_loop fuel h = Ok h' ∧ represents h' L' ∧ l_sweep L' = [] ∧
    l_free L' =
      reverse (filter (λ a, verdict_at h a = Some SEGMENT_FREE) ls)
        ++ l_free L ∧
    (∀ c, c < NONMOVING_ALLOCA_CNT →
       l_active L' !!! c =
         reverse (filter (λ a, verdict_at h a = Some SEGMENT_PARTIAL ∧
                               class_at h a = Some c) ls)
           ++ l_active L !!! c) ∧
    (∀ c, c < NONMOVING_ALLOCA_CNT →
       l_filled L' !!! c =
         reverse (filter (λ a, verdict_at h a = Some SEGMENT_FILLED ∧
                               class_at h a = Some c) ls)
           ++ l_filled L !!! c).
Proof.
  induction ls as [|a rest IH]; intros fuel h L Hrep HL Hok Hfuel.
  - pose proof Hrep as (Hsw & _). rewrite HL in Hsw. simpl in Hsw.
    exists h, L. split_and!; [|done..].
    destruct fuel; simpl; by rewrite Hsw.
  - pose proof Hrep as (Hsw & _ & Hact & Hfil & Hcnt & _).
    rewrite HL in Hsw.
    pose proof (chain_NoDup _ _ _ Hsw) as [Hnin _]%NoDup_cons.
    destruct Hsw as (Hhd & s & Hs & _).
    assert (Hsok : sweepable s) by (eapply Hok; [apply list_elem_of_here|done]).
    destruct (sweep_step_represents h L a rest s)
      as (r & s1 & s2 & h1 & Hcls & Hstep & _ & Hm & Hrep1); [done..|].
    destruct fuel as [|fuel]; [simpl in Hfuel; lia|]. simpl in Hfuel.
    assert (Hsame : ∀ b, b ∈ rest → segments h1 !! b = segments h !! b).
    { intros b Hb. rewrite Hm. apply lookup_insert_ne. by intros ->. }
    destruct (IH fuel h1 (refile r (class_of s) a L))
      as (h' & L' & Hloop & Hrep' & HL' & Hfree & Hactive & Hfilled);
      [done|by apply refile_sweep| |lia|].
    { intros b sb Hb Hsb. rewrite Hsame in Hsb by done.
      eapply Hok; [by apply list_elem_of_further|done]. }
    assert (Hva : verdict_at h a = Some r).
    { unfold verdict_at. by rewrite Hs, Hcls. }
    assert (Hca : class_at h a = Some (class_of s)).
    { unfold class_at. by rewrite Hs. }
    assert (Hc : class_of s < NONMOVING_ALLOCA_CNT).
    { destruct Hsok as (_ & Hr & _). unfold class_of, class_in_range in *. lia. }
    assert (Hla : class_of s < length (l_active L)).
    { by rewrite <- (Forall2_length _ _ _ Hact), Hcnt. }
    assert (Hlf : class_of s < length (l_filled L)).
    { by rewrite <- (Forall2_length _ _ _ Hfil), Hcnt. }
    exists h', L'. split_and!; [|done..| | |].
    + simpl. by rewrite Hhd, Hstep.
    + rewrite reverse_filter_cons, Hfree.
      rewrite (filter_ext_elem _ (λ a, verdict_at h a = Some SEGMENT_FREE)).
      2:{ intros b Hb. unfold verdict_at. by rewrite Hsame. }
      f_equal. rewrite Hva. case_decide as Hd.
      * injection Hd as ->. done.
      * destruct r; done.
    + intros c Hclt. rewrite reverse_filter_cons, Hactive by done.
      rewrite (filter_ext_elem _ (λ a, verdict_at h a = Some SEGMENT_PARTIAL ∧
                                       class_at h a = Some c)).
      2:{ intros b Hb. unfold verdict_at, class_at. by rewrite Hsame. }
      f_equal. rewrite Hva, Hca. case_decide as Hd.
      * destruct Hd as [[= ->] [= <-]]. simpl.
        by rewrite list_lookup_total_insert_eq.
      * destruct r; simpl; try done.
        rewrite list_lookup_total_insert_ne; [done|]. intros <-. by apply Hd.
    + intros c Hclt. rewrite reverse_filter_cons, Hfilled by done.
      rewrite (filter_ext_elem _ (λ a, verdict_at h a = Some SEGMENT_FILLED ∧
                                       class_at h a = Some c)).
      2:{ intros b Hb. unfold verdict_at, class_at. by rewrite Hsame. }
      f_equal. rewrite Hva, Hca. case_decide as Hd.
      * destruct Hd as [[= ->] [= <-]]. simpl.
        by rewrite list_lookup_total_insert_eq.
      * destruct r; simpl; try done.
        rewrite list_lookup_total_insert_ne; [done|]. intros <-. by apply Hd.
Qed.

Lemma nonmoving_sweep_order fuel h L :
  represents h L → l_sweep L = [] →
  (∀ a s, a ∈ concat (l_filled L) → segments h !! a = Some s → sweepable s) →
  length (concat (l_filled L)) ≤ fuel →
  let swept := concat (reverse (l_filled L)) in
  ∃ h' L', nonmoving_sweep fuel h = Ok h' ∧ represents h' L' ∧
    l_sweep L' = [] ∧
    l_free L' =
      reverse (filter (λ a, verdict_at h a = Some SEGMENT_FREE) swept)
        ++ l_free L ∧
    (∀ c, c < NONMOVING_ALLOCA_CNT →
       l_active L' !!! c =
         reverse (filter (λ a, verdict_at h a = Some SEGMENT_PARTIAL ∧
                               class_at h a = Some c) swept)
           ++ l_active L !!! c) ∧
    (∀ c, c < NONMOVING_ALLOCA_CNT →
       l_filled L' !!! c =
         reverse (filter (λ a, verdict_at h a = Some SEGMENT_FILLED ∧
                               class_at h a = Some c) swept)).
Proof.
  intros Hrep HL Hok Hfuel swept.
  pose proof Hrep as (_ & _ & _ & Hfil & _ & _).
  destruct (prepare_sweep_spec fuel h L Hrep HL)
    as (h1 & Hprep & Hrep1 & _ & Hlink1).
  { intros l [i Hi]%list_elem_of_lookup_1.
    pose proof (length_concat_lookup _ _ _ Hi). lia. }
  assert (Hperm : swept ≡ₚ concat (l_filled L))
    by apply concat_Permutation, reverse_Permutation.
  assert (Hseg : ∀ a, a ∈ swept →
            ∃ s q, segments h !! a = Some s ∧ sweepable s ∧
                   segments h1 !! a = Some (set_link q s)).
  { intros a Ha. rewrite Hperm in Ha. pose proof Ha as Ha'.
    apply elem_of_concat_lookup in Ha as (i & l & Hl & Ha).
    destruct (Forall2_lookup_r _ _ _ _ _ Hfil Hl) as (alloc & _ & Hc).
    destruct (chain_lookup _ _ _ _ Hc Ha) as [s Hs].
    destruct (Hlink1 a s Hs) as [q Hq]. exists s, q. eauto. }
  set (L1 := {| l_sweep := swept; l_free := l_free L;
                l_active := l_active L;
                l_filled := replicate NONMOVING_ALLOCA_CNT [] |}) in *.
  destruct (sweep_loop_order swept fuel h1 L1)
    as (h' & L' & Hloop & Hrep' & HL' & Hfree & Hactive & Hfilled);
    [done|done| | |].
  { intros a s1 Ha Hs1. destruct (Hseg a Ha) as (s & q & Hs & Hsok & Hq).
    rewrite Hq in Hs1. injection Hs1 as <-. exact Hsok. }
  { subst swept. by rewrite Hperm. }
  assert (Hv : ∀ a, a ∈ swept → verdict_at h1 a = verdict_at h a).
  { intros a Ha. destruct (Hseg a Ha) as (s & q & Hs & (Hlay & _ & Hcur) & Hq).
    unfold verdict_at. rewrite Hs, Hq.
    destruct (sweep_segment_total s) as (r & s1 & Hcls); [apply Hlay|done|].
    by rewrite (sweep_segment_set_link q _ _ _ Hcls), Hcls. }
  assert (Hcl : ∀ a, a ∈ swept → class_at h1 a = class_at h a).
  { intros a Ha. destruct (Hseg a Ha) as (s & q & Hs & _ & Hq).
    unfold class_at. by rewrite Hs, Hq. }
  exists h', L'. unfold nonmoving_sweep. rewrite Hprep. simpl.
  split_and!; [done..| | |].
  - rewrite Hfree. f_equal. f_equal. apply filter_ext_elem.
    intros a Ha. by rewrite Hv.
  - intros c Hc. rewrite Hactive by done. f_equal. f_equal.
    apply filter_ext_elem. intros a Ha. by rewrite Hv, Hcl.
  - intros c Hc. rewrite Hfilled by done. simpl.
    rewrite lookup_total_replicate_2 by done. rewrite app_nil_r.
    f_equal. apply filter_ext_elem. intros a Ha. by rewrite Hv, Hcl.
Qed.

(** The lists after a full pass.  With [swept] the former filled lists
    joined, later size classes first (the order in which the pass sweeps),
    the free list is the segments of [swept] classified [SEGMENT_FREE], last
    swept first, followed by the old free list; the active list of a size
    class is its segments classified [SEGMENT_PARTIAL], last swept first,
    followed by the old active list; and its filled list is its segments
    classified [SEGMENT_FILLED], last swept first. *)
Theorem nonmoving_sweep_refiles_in_order fuel h L :
  represents h L → l_sweep L = [] →
  (∀ a s, a ∈ concat (l_filled L) → segments h !! a = Some s → sweepable s) →
  length (concat (l_filled L)) ≤ fuel →
  let swept := concat (reverse (l_filled L)) in
  ∃ h' L', nonmoving_sweep fuel h = Ok h' ∧ represents h' L' ∧
    l_sweep L' = [] ∧
    l_free L' =
      reverse (filter (λ a, verdict_at h a = Some SEGMENT_FREE) swept)
        ++ l_free L ∧
    (∀ c, c < NONMOVING_ALLOCA_CNT →
       l_active L' !!! c =
         reverse (filter (λ a, verdict_at h a = Some SEGMENT_PARTIAL ∧
                               class_at h a = Some c) swept)
           ++ l_active L !!! c) ∧
    (∀ c, c < NONMOVING_ALLOCA_CNT →
       l_filled L' !!! c =
         reverse (filter (λ a, verdict_at h a = Some SEGMENT_FILLED ∧
                               class_at h a = Some c) swept)).
Proof. apply nonmoving_sweep_order. Qed.

(** ** Two passes in a row *)

Lemma filter_none (P : nat → Prop) `{!∀ x, Decision (P x)} (l : list nat) :
  (∀ x, x ∈ l → ¬ P x) → filter P l = [].
Proof.
  induction l as [|x l IH]; intros Hno; [done|].
  rewrite filter_cons_False by (apply Hno, list_elem_of_here).
  apply IH. intros y Hy. by apply Hno, list_elem_of_further.
Qed.

Lemma represents_filled_NoDup h L :
  represents h L → NoDup (concat (l_filled L)).
Proof.
  intros (_ & _ & _ & _ & _ & Hnd). unfold all_segments in Hnd.
  apply NoDup_app in Hnd as (_ & _ & Hnd).
  apply NoDup_app in Hnd as (_ & _ & Hnd).
  by apply NoDup_app in Hnd as (_ & _ & Hnd).
Qed.

(** Sweeping again straight after a pass, with the marks as they are, moves
    no segment to another list: the second pass returns, the free list and
    every active list are exactly what the first pass left, and every filled
    list holds the same segments (in another order). *)
Theorem second_pass_moves_nothing fuel h L :
  represents h L → l_sweep L = [] →
  (∀ a s, a ∈ concat (l_filled L) → segments h !! a = Some s → sweepable s) →
  length (concat (l_filled L)) ≤ fuel →
  ∃ h1 L1 h2 L2,
    nonmoving_sweep fuel h = Ok h1 ∧ represents h1 L1 ∧
    nonmoving_sweep fuel h1 = Ok h2 ∧ represents h2 L2 ∧
    l_free L2 = l_free L1 ∧
    (∀ c, c < NONMOVING_ALLOCA_CNT →
       l_active L2 !!! c = l_active L1 !!! c) ∧
    (∀ c, c < NONMOVING_ALLOCA_CNT →
       l_filled L2 !!! c ≡ₚ l_filled L1 !!! c).
Proof.
  intros Hrep HL Hok Hfuel.
  destruct (nonmoving_sweep_order fuel h L Hrep HL Hok Hfuel)
    as (h1 & L1 & Hrun1 & Hrep1 & HL1 & _ & _ & Hfilled1).
  destruct (nonmoving_sweep_contents fuel h L Hrep HL Hok Hfuel)
    as (h1' & Hrun1' & Hcont).
  rewrite Hrun1 in Hrun1'. injection Hrun1' as <-.
  set (swept := concat (reverse (l_filled L))) in *.
  assert (Hperm : swept ≡ₚ concat (l_filled L))
    by apply concat_Permutation, reverse_Permutation.
  pose proof Hrep1 as (_ & _ & _ & Hfil1 & Hcnt1 & _).
  assert (Hlen1 : length (l_filled L1) = NONMOVING_ALLOCA_CNT).
  { by rewrite <- (Forall2_length _ _ _ Hfil1). }
  (* what the first pass left on the filled lists *)
  assert (Hleft : ∀ c l a, l_filled L1 !! c = Some l → a ∈ l →
            a ∈ swept ∧
            ∃ s q, segments h !! a = Some s ∧ sweepable s ∧
              nonmoving_sweep_segment s = Ok (SEGMENT_FILLED, s) ∧
              class_of s = c ∧ segments h1 !! a = Some (set_link q s)).
  { intros c l a Hl Ha.
    assert (Hc : c < NONMOVING_ALLOCA_CNT).
    { rewrite <- Hlen1. by eapply lookup_lt_Some. }
    rewrite <- (list_lookup_total_correct _ _ _ Hl), Hfilled1 in Ha by done.
    apply elem_of_reverse, list_elem_of_filter in Ha as [[Hv Hcl] Ha].
    split; [done|].
    destruct (Hcont a) as (s & r & s1 & s' & Hs & Hcls & Hs' & Hbs & Hnf & Hsn & Hby);
      [by rewrite <- Hperm|].
    unfold verdict_at in Hv. rewrite Hs, Hcls in Hv. injection Hv as ->.
    unfold class_at in Hcl. rewrite Hs in Hcl. injection Hcl as Hcl.
    destruct (sweep_segment_cases _ _ _ Hcls)
      as [(? & _)|[(_ & _ & _ & ->)|(? & _)]]; [done| |done].
    exists s, (link s'). split_and!; [done| |done|done|].
    - apply (Hok a s); [by rewrite <- Hperm|done].
    - rewrite Hs'. f_equal. unfold scrubbed in Hby.
      destruct s', s. simpl in *. by subst. }
  assert (Hok1 : ∀ a s', a ∈ concat (l_filled L1) →
            segments h1 !! a = Some s' → sweepable s').
  { intros a s' (c & l & Hl & Ha)%elem_of_concat_lookup Hs'.
    destruct (Hleft c l a Hl Ha) as (_ & s & q & _ & Hsok & _ & _ & Hq).
    rewrite Hq in Hs'. injection Hs' as <-. exact Hsok. }
  assert (Hfuel1 : length (concat (l_filled L1)) ≤ fuel).
  { etrans; [|exact Hfuel]. rewrite <- Hperm. apply submseteq_length.
    apply NoDup_submseteq; [by eapply represents_filled_NoDup|].
    intros a (c & l & Hl & Ha)%elem_of_concat_lookup.
    by destruct (Hleft c l a Hl Ha). }
  destruct (nonmoving_sweep_order fuel h1 L1 Hrep1 HL1 Hok1 Hfuel1)
    as (h2 & L2 & Hrun2 & Hrep2 & HL2 & Hfree2 & Hactive2 & Hfilled2).
  set (swept1 := concat (reverse (l_filled L1))) in *.
  assert (Hperm1 : swept1 ≡ₚ concat (l_filled L1))
    by apply concat_Permutation, reverse_Permutation.
  assert (Hv1 : ∀ a, a ∈ swept1 →
            ∃ c l, l_filled L1 !! c = Some l ∧ a ∈ l ∧
                   verdict_at h1 a = Some SEGMENT_FILLED ∧
                   class_at h1 a = Some c).
  { intros a Ha. rewrite Hperm1 in Ha.
    apply elem_of_concat_lookup in Ha as (c & l & Hl & Ha).
    destruct (Hleft c l a Hl Ha) as (_ & s & q & _ & _ & Hcls & Hc & Hq).
    exists c, l. split_and!; [done..| |].
    - unfold verdict_at. rewrite Hq.
      by rewrite (sweep_segment_set_link q _ _ _ Hcls).
    - unfold class_at. rewrite Hq. simpl. by rewrite <- Hc. }
  exists h1, L1, h2, L2. split_and!; [done..| | |].
  - rewrite Hfree2, filter_none; [done|]. intros a Ha Hv.
    destruct (Hv1 a Ha) as (_ & _ & _ & _ & Hv' & _). congruence.
  - intros c Hc. rewrite Hactive2 by done. rewrite filter_none; [done|].
    intros a Ha [Hv _]. destruct (Hv1 a Ha) as (_ & _ & _ & _ & Hv' & _).
    congruence.
  - intros c Hc. rewrite Hfilled2 by done. rewrite reverse_Permutation.
    destruct (lookup_lt_is_Some_2 (l_filled L1) c) as [l Hl]; [lia|].
    rewrite (list_lookup_total_correct _ _ _ Hl).
    apply NoDup_Permutation.
    + apply NoDup_filter. rewrite Hperm1.
      by eapply represents_filled_NoDup.
    + destruct (Forall2_lookup_r _ _ _ _ _ Hfil1 Hl) as (alloc & _ & Hchain).
      by eapply chain_NoDup.
    + intros a. rewrite list_elem_of_filter. split.
      * intros [[_ Hcl] Ha]. destruct (Hv1 a Ha) as (c' & l' & Hl' & Ha' & _ & Hcl').
        rewrite Hcl in Hcl'. injection Hcl' as <-.
        rewrite Hl in Hl'. by injection Hl' as <-.
      * intros Ha.
        assert (Hin : a ∈ swept1).
        { rewrite Hperm1. apply elem_of_concat_lookup. eauto. }
        destruct (Hv1 a Hin) as (c' & l' & Hl' & Ha' & Hv & Hcl).
        assert (c' = c) as ->.
        { eapply (NoDup_concat_lookup (l_filled L1)); [|done..].
          by eapply represents_filled_NoDup. }
        done.
Qed.

(** ** What the lists mean after a pass *)

(** Scan and scrubbing together leave the mark entries alone. *)
Lemma scrub_marks seg r s1 q s2 :
  segment_layout seg →
  nonmoving_sweep_segment seg = Ok (r, s1) →
  scrub r (set_link q s1) = Ok s2 →
  block_size s2 = block_size seg ∧ next_free s2 = next_free s1 ∧
  next_free_snap s2 = next_free_snap s1 ∧
  ∀ i, i < nonmoving_segment_block_count seg →
    bitmap s2 !! i = bitmap seg !! i.
Proof.
  intros Hlay Hcls Hscrub.
  destruct (sweep_segment_frame _ _ _ Hcls) as (_ & Hbs1 & Hbm1).
  destruct (scrub_scrubbed _ _ _ Hscrub) as (Hbs & Hnf & Hsn & Hby).
  { apply (segment_layout_ext seg); simpl; [done|by rewrite Hbm1|done]. }
  simpl in *. split_and!; [congruence|done|done|].
  intros i Hi. unfold scrubbed, nonmoving_segment_block_count in *.
  simpl in *. rewrite Hbs1, Hbm1 in Hby.
  destruct r, DEBUG_sanity; try (by rewrite Hby).
  - rewrite Hby.
    destruct (sweep_segment_cases _ _ _ Hcls)
      as [(_ & Hall & _)|[(? & _)|(? & _)]]; [|done..].
    rewrite (Hall i Hi). apply lookup_replicate_2.
    apply lookup_lt_is_Some. rewrite (Hall i Hi). eauto.
  - by apply Hby.
Qed.

(** After a full pass the list a swept segment is on says what its bitmap
    holds.  For every segment that was on a filled list: if it is on the free
    list, none of its blocks is marked and both cursors are zero; if it is on
    an active list, that is the list of its size class, it has a marked and
    an unmarked block, [next_free] is its lowest unmarked block and
    [next_free_snap] equals it; if it is on a filled list, that is the list
    of its size class and all its blocks are marked. *)
Theorem swept_segments_match_their_list fuel h L :
  represents h L → l_sweep L = [] →
  (∀ a s, a ∈ concat (l_filled L) → segments h !! a = Some s → sweepable s) →
  length (concat (l_filled L)) ≤ fuel →
  ∃ h' L', nonmoving_sweep fuel h = Ok h' ∧ represents h' L' ∧
    ∀ a, a ∈ concat (l_filled L) →
      ∃ s', segments h' !! a = Some s' ∧
        (placed L' a OnFree →
           next_free s' = 0 ∧ next_free_snap s' = 0 ∧
           ∀ i, i < nonmoving_segment_block_count s' → unmarked s' i) ∧
        (∀ c, placed L' a (OnActive c) →
           class_of s' = c ∧
           (∃ m, m < nonmoving_segment_block_count s' ∧ marked s' m) ∧
           next_free s' < nonmoving_segment_block_count s' ∧
           unmarked s' (next_free s') ∧
           (∀ j, unmarked s' j → next_free s' ≤ j) ∧
           next_free_snap s' = next_free s') ∧
        (∀ c, placed L' a (OnFilled c) →
           class_of s' = c ∧ 0 < nonmoving_segment_block_count s' ∧
           ∀ i, i < nonmoving_segment_block_count s' → marked s' i).
Proof.
  intros Hrep HL Hok Hfuel.
  destruct (nonmoving_sweep_spec fuel h L Hrep HL Hok Hfuel)
    as (h' & L' & Hrun & Hrep' & _ & Hnew & _).
  exists h', L'. split_and!; [done..|]. intros a Ha.
  destruct (Hnew a Ha) as (s & r & s1 & s2 & Hs & Hcls & Hpl & Hscrub & Hs2).
  destruct (Hok a s Ha Hs) as (Hlay & _).
  destruct (scrub_marks _ _ _ _ _ Hlay Hcls Hscrub) as (Hbs & Hnf & Hsn & Hmarks).
  pose proof Hrep' as (_ & _ & _ & _ & _ & Hnd).
  assert (Hcount : nonmoving_segment_block_count s2
                   = nonmoving_segment_block_count s).
  { unfold nonmoving_segment_block_count. by rewrite Hbs. }
  assert (Hclass : class_of s2 = class_of s).
  { unfold class_of. by rewrite Hbs. }
  assert (Hu : ∀ i, i < nonmoving_segment_block_count s →
            unmarked s2 i ↔ unmarked s i).
  { intros i Hi. unfold unmarked. by rewrite Hmarks. }
  assert (Hm : ∀ i, i < nonmoving_segment_block_count s →
            marked s2 i ↔ marked s i).
  { intros i Hi. unfold marked. by rewrite Hmarks. }
  exists s2. split; [done|]. rewrite Hcount, Hclass, Hnf, Hsn.
  destruct (sweep_segment_cases _ _ _ Hcls)
    as [(-> & Hall & Hnf0 & Hsn0 & _)|[(-> & Hpos & Hall & ->)
       |(-> & k & m & Hk & Hmlt & Huk & Hmk & Hlow & ->)]].
  - split_and!.
    + intros _. split_and!; [done..|]. intros i Hi. by apply Hu, Hall.
    + intros c Hc. discriminate (placed_unique _ _ _ _ Hnd Hpl Hc).
    + intros c Hc. discriminate (placed_unique _ _ _ _ Hnd Hpl Hc).
  - split_and!.
    + intros Hc. discriminate (placed_unique _ _ _ _ Hnd Hpl Hc).
    + intros c Hc. discriminate (placed_unique _ _ _ _ Hnd Hpl Hc).
    + intros c Hc. pose proof (placed_unique _ _ _ _ Hnd Hpl Hc) as Heq.
      simpl in Heq. injection Heq as <-.
      split_and!; [done..|]. intros i Hi. by apply Hm, Hall.
  - split_and!.
    + intros Hc. discriminate (placed_unique _ _ _ _ Hnd Hpl Hc).
    + intros c Hc. pose proof (placed_unique _ _ _ _ Hnd Hpl Hc) as Heq.
      simpl in Heq. injection Heq as <-.
      simpl. split_and!; [done| |done| | |done].
      * exists m. split; [done|]. by apply Hm.
      * by apply Hu.
      * intros j Hj. destruct (decide (k ≤ j)) as [|Hlt]; [done|].
        destruct (marked_unmarked s j); [apply Hlow; lia|].
        apply Hu; [lia|done].
    + intros c Hc. discriminate (placed_unique _ _ _ _ Hnd Hpl Hc).
Qed.

End Sweep.

(** ** The results on the sample configuration *)

Lemma sample_sweepable s :
  (block_size s = 3 ∨ block_size s = 4)%Z → length (bitmap s) = 40 →
  sweepable 3 2 sample_block_count sample_block_bytes sample_block_offset s.
Proof.
  intros Hbs Hlen.
  unfold sweepable, segment_layout, bitmap_in_segment, blocks_in_segment,
    blocks_disjoint, class_in_range, cursors_clear,
    nonmoving_segment_block_count, nonmoving_segment_block_size,
    nonmoving_segment_get_block, sample_block_offset.
  rewrite Hlen. destruct Hbs as [-> | ->]; simpl;
    split_and!; try lia; intros; lia.
Qed.

Lemma sample_heap_represents : represents 2 sample_heap sample_lists.
Proof.
  unfold represents, all_segments. simpl.
  repeat (first [reflexivity | apply conj | apply Forall2_cons
                | apply Forall2_nil_2 | eexists]).
  apply (bool_decide_unpack _). vm_compute. exact I.
Qed.

Lemma sample_filled_sweepable a s :
  a ∈ [1; 2; 3] → segments sample_heap !! a = Some s →
  sweepable 3 2 sample_block_count sample_block_bytes sample_block_offset s.
Proof.
  intros Ha Hs. apply sample_sweepable.
  - set_unfold. destruct Ha as [Ha|[Ha|[Ha|[]]]]; subst a; vm_compute in Hs;
      injection Hs as <-; simpl; auto.
  - set_unfold. destruct Ha as [Ha|[Ha|[Ha|[]]]]; subst a; vm_compute in Hs;
      by injection Hs as <-.
Qed.

Lemma sample_staged_sweepable a s :
  a ∈ [3; 1; 2] → segments sample_staged_heap !! a = Some s →
  sweepable 3 2 sample_block_count sample_block_bytes sample_block_offset s.
Proof.
  intros Ha Hs. apply sample_sweepable.
  - set_unfold. destruct Ha as [Ha|[Ha|[Ha|[]]]]; subst a; vm_compute in Hs;
      injection Hs as <-; simpl; auto.
  - set_unfold. destruct Ha as [Ha|[Ha|[Ha|[]]]]; subst a; vm_compute in Hs;
      by injection Hs as <-.
Qed.

Lemma sweep_segment_classification_witness :
  ∃ r seg', nonmoving_sweep_segment sample_block_count seg_mixed = Ok (r, seg') ∧
    (r = SEGMENT_PARTIAL ↔
       (∃ i, i < 4 ∧ marked seg_mixed i) ∧ (∃ j, j < 4 ∧ unmarked seg_mixed j)).
Proof.
  destruct (sweep_segment_classification sample_block_count seg_mixed)
    as (r & seg' & Hrun & _ & _ & Hp).
  - vm_compute. lia.
  - left. vm_compute. lia.
  - exists r, seg'. split; [exact Hrun|exact Hp].
Defined.

Lemma sweep_segment_cursors_witness :
  (SEGMENT_PARTIAL = SEGMENT_PARTIAL →
     next_free (set_cursors 1 seg_mixed) < 4 ∧
     unmarked seg_mixed (next_free (set_cursors 1 seg_mixed)) ∧
     (∀ j, unmarked seg_mixed j → next_free (set_cursors 1 seg_mixed) ≤ j) ∧
     next_free_snap (set_cursors 1 seg_mixed)
       = next_free (set_cursors 1 seg_mixed)) ∧
  (SEGMENT_PARTIAL = SEGMENT_FILLED →
     next_free (set_cursors 1 seg_mixed) = next_free seg_mixed ∧
     next_free_snap (set_cursors 1 seg_mixed) = next_free_snap seg_mixed ∧
     set_cursors 1 seg_mixed = seg_mixed).
Proof.
  apply (sweep_segment_cursors sample_block_count seg_mixed SEGMENT_PARTIAL
           (set_cursors 1 seg_mixed)).
  reflexivity.
Defined.

Lemma sweep_partitions_filled_segments_witness :
  ∃ h' L',
    nonmoving_sweep 3 2 sample_block_count sample_block_bytes
      sample_block_offset true 3 sample_heap = Ok h' ∧
    represents 2 h' L' ∧
    (∀ b c, placed sample_lists b (OnActive c) →
       placed L' b (OnActive c) ∧ segments h' !! b = segments sample_heap !! b).
Proof.
  destruct (sweep_partitions_filled_segments 3 2 sample_block_count
              sample_block_bytes sample_block_offset true 3
              sample_heap sample_lists)
    as (h' & L' & Hrun & Hrep & _ & Hact).
  - exact sample_heap_represents.
  - reflexivity.
  - exact sample_filled_sweepable.
  - simpl. lia.
  - exists h', L'. split; [exact Hrun|]. split; [exact Hrep|exact Hact].
Defined.

Lemma sweep_list_empty_at_entry_and_exit_witness :
  nonmoving_sweep 3 2 sample_block_count sample_block_bytes
    sample_block_offset true 3 sample_unfinished_heap = Fatal ∧
  ∃ h', nonmoving_sweep 3 2 sample_block_count sample_block_bytes
          sample_block_offset true 3 sample_heap = Ok h' ∧
        sweep_list h' = None.
Proof.
  split.
  - apply (sweep_list_empty_at_entry_and_exit 3 2 sample_block_count
             sample_block_bytes sample_block_offset true 3
             sample_unfinished_heap).
    simpl. discriminate.
  - destruct (sweep_list_empty_at_entry_and_exit 3 2 sample_block_count
                sample_block_bytes sample_block_offset true 3 sample_heap)
      as (_ & Hexit & Hreturns).
    destruct (Hreturns sample_lists) as [h' Hrun].
    + exact sample_heap_represents.
    + reflexivity.
    + exact sample_filled_sweepable.
    + simpl. lia.
    + exists h'. split; [exact Hrun|]. exact (proj2 (Hexit h' Hrun)).
Defined.

Lemma prepare_sweep_stages_witness :
  ∃ h', prepare_sweep 2 2 sample_heap = Ok h' ∧
    Forall (λ a, filled a = None) (allocators h') ∧
    chain (segments h') (sweep_list h') [3; 1; 2].
Proof.
  destruct (prepare_sweep_stages 2 2 sample_heap sample_lists)
    as (h' & Hrun & Hnone & Hchain & _).
  - exact sample_heap_represents.
  - reflexivity.
  - intros l Hl. set_unfold. destruct Hl as [Hl|[Hl|[]]]; subst l; simpl; lia.
  - exists h'. split; [exact Hrun|]. split; [exact Hnone|exact Hchain].
Defined.

Lemma free_segment_cursors_witness :
  ∃ seg', nonmoving_sweep_segment sample_block_count seg_dead
            = Ok (SEGMENT_FREE, seg') ∧
          next_free seg' = 0 ∧ next_free_snap seg' = 0 ∧ seg' = seg_dead.
Proof.
  apply (free_segment_cursors sample_block_count seg_dead).
  - vm_compute. lia.
  - intros i Hi. vm_compute in Hi.
    destruct i as [|[|[|[|i]]]]; [reflexivity..|lia].
  - reflexivity.
  - reflexivity.
Defined.

Lemma free_segment_scrub_witness :
  ∃ h' s',
    sweep_step 3 sample_block_count sample_block_bytes sample_block_offset
      true 1 sample_heap = Ok h' ∧
    segments h' !! 1 = Some s' ∧ bitmap s' = replicate 40 0%Z.
Proof.
  destruct (free_segment_scrub 3 sample_block_count sample_block_bytes
              sample_block_offset true sample_heap 1 seg_dead seg_dead)
    as (h' & s' & Hstep & Hs' & Hbytes & _).
  - reflexivity.
  - reflexivity.
  - exists h', s'. split; [exact Hstep|]. split; [exact Hs'|exact Hbytes].
Defined.

Lemma partial_segment_scrub_witness :
  ∃ h' s',
    sweep_step 3 sample_block_count sample_block_bytes sample_block_offset
      true 2 sample_heap = Ok h' ∧
    segments h' !! 2 = Some s' ∧
    block_contents sample_block_bytes sample_block_offset s' 1
      = replicate 8 0%Z ∧
    block_contents sample_block_bytes sample_block_offset s' 0
      = replicate 8 7%Z.
Proof.
  destruct (partial_segment_scrub 3 2 sample_block_count sample_block_bytes
              sample_block_offset true sample_heap 2 seg_mixed
              SEGMENT_PARTIAL (set_cursors 1 seg_mixed))
    as (h' & s' & Hstep & Hs' & _ & Hpart & _).
  - reflexivity.
  - reflexivity.
  - exact (proj1 (sample_sweepable seg_mixed (or_introl eq_refl) eq_refl)).
  - unfold class_in_range. simpl. lia.
  - reflexivity.
  - reflexivity.
  - discriminate.
  - destruct (Hpart eq_refl) as (Hzero & Hkeep & _).
    exists h', s'. split; [exact Hstep|]. split; [exact Hs'|]. split.
    + apply (Hzero 1); [vm_compute; lia|reflexivity].
    + rewrite (Hkeep 0); [reflexivity|vm_compute; lia|].
      exists 1%Z. split; [reflexivity|lia].
Defined.

Lemma early_exit_refines_full_scan_witness :
  nonmoving_sweep_segment sample_block_count seg_mixed
    = reference_sweep_segment sample_block_count seg_mixed.
Proof.
  apply (early_exit_refines_full_scan sample_block_count seg_mixed).
  vm_compute. lia.
Defined.

Lemma sweep_loop_terminates_witness :
  ∃ h',
    sweep_run 3 sample_block_count sample_block_bytes sample_block_offset
      true sample_staged_heap [3; 1; 2] h' ∧
    sweep_list h' = None ∧
    sweep_loop 3 sample_block_count sample_block_bytes sample_block_offset
      true 3 sample_staged_heap = Ok h'.
Proof.
  destruct (sweep_loop_terminates 3 2 sample_block_count sample_block_bytes
              sample_block_offset true [3; 1; 2] sample_staged_heap)
    as (h' & Hrun & _ & Hnone & Hfuel).
  - simpl. split; [reflexivity|]. eexists. split; [reflexivity|].
    simpl. split; [reflexivity|]. eexists. split; [reflexivity|].
    simpl. split; [reflexivity|]. eexists. split; [reflexivity|].
    reflexivity.
  - exact sample_staged_sweepable.
  - reflexivity.
  - exists h'. split; [exact Hrun|]. split; [exact Hnone|].
    apply Hfuel. simpl. lia.
Defined.

(** ** Further results on the sample configuration *)

Lemma sweep_segment_idempotent_witness :
  nonmoving_sweep_segment sample_block_count (set_cursors 1 seg_mixed)
    = Ok (SEGMENT_PARTIAL, set_cursors 1 seg_mixed).
Proof.
  apply (sweep_segment_idempotent sample_block_count seg_mixed).
  reflexivity.
Defined.

Lemma sweep_segment_reads_marks_only_witness :
  nonmoving_sweep_segment sample_block_count
    (set_bitmap [1; 0; 1; 0]%Z seg_mixed)
    = Ok (SEGMENT_PARTIAL,
          set_bitmap [1; 0; 1; 0]%Z (set_cursors 1 seg_mixed)).
Proof.
  apply (sweep_segment_reads_marks_only sample_block_count seg_mixed).
  - reflexivity.
  - intros i Hi. vm_compute in Hi.
    destruct i as [|[|[|[|i]]]]; [reflexivity..|lia].
Defined.

Lemma sweep_segment_aborts_iff_witness :
  nonmoving_sweep_segment sample_block_count
    (sample_segment None 2 0 9 []) = Fatal.
Proof.
  apply (sweep_segment_aborts_iff sample_block_count). split.
  - reflexivity.
  - simpl. intros [H _]. discriminate.
Defined.

Lemma scrub_keeps_verdict_witness :
  ∃ s2, scrub sample_block_count sample_block_bytes sample_block_offset true
          SEGMENT_PARTIAL (set_cursors 1 seg_mixed) = Ok s2 ∧
        nonmoving_sweep_segment sample_block_count s2
          = Ok (SEGMENT_PARTIAL, s2).
Proof.
  eexists. split; [reflexivity|].
  apply (scrub_keeps_verdict sample_block_count sample_block_bytes
           sample_block_offset true seg_mixed SEGMENT_PARTIAL
           (set_cursors 1 seg_mixed)).
  - exact (proj1 (sample_sweepable seg_mixed (or_introl eq_refl) eq_refl)).
  - reflexivity.
  - reflexivity.
Defined.

Lemma prepare_sweep_only_relinks_witness :
  ∃ h', prepare_sweep 2 2 sample_heap = Ok h' ∧ free h' = Some 5 ∧
        active <$> allocators h' = [Some 4; None].
Proof.
  destruct (prepare_sweep 2 2 sample_heap) as [h'| | |] eqn:Hrun;
    try (vm_compute in Hrun; discriminate).
  exists h'. split; [reflexivity|].
  destruct (prepare_sweep_only_relinks 2 2 sample_heap h' Hrun)
    as (Hfree & Hact & _).
  split; [exact Hfree|exact Hact].
Defined.

Lemma nonmoving_sweep_keeps_segments_witness :
  ∃ h', nonmoving_sweep 3 2 sample_block_count sample_block_bytes
          sample_block_offset true 3 sample_heap = Ok h' ∧
        dom (segments h') = dom (segments sample_heap) ∧
        length (allocators h') = 2.
Proof.
  destruct (nonmoving_sweep 3 2 sample_block_count sample_block_bytes
              sample_block_offset true 3 sample_heap)
    as [h'| | |] eqn:Hrun; try (vm_compute in Hrun; discriminate).
  exists h'. split; [reflexivity|].
  destruct (nonmoving_sweep_keeps_segments 3 2 sample_block_count
              sample_block_bytes sample_block_offset true 3 sample_heap
              h' Hrun) as (Hdom & Hlen & _).
  split; [exact Hdom|exact Hlen].
Defined.

Lemma release_sweep_writes_no_byte_witness :
  ∃ h' s', nonmoving_sweep 3 2 sample_block_count sample_block_bytes
             sample_block_offset false 3 sample_heap = Ok h' ∧
           segments h' !! 1 = Some s' ∧ bitmap s' = bitmap seg_dead.
Proof.
  destruct (nonmoving_sweep 3 2 sample_block_count sample_block_bytes
              sample_block_offset false 3 sample_heap)
    as [h'| | |] eqn:Hrun; try (vm_compute in Hrun; discriminate).
  destruct (segments h' !! 1) as [s'|] eqn:Hs'.
  - exists h', s'. split; [reflexivity|]. split; [exact Hs'|].
    apply (release_sweep_writes_no_byte 3 2 sample_block_count
             sample_block_bytes sample_block_offset false 3 sample_heap h' 1);
      [reflexivity|exact Hrun|reflexivity|exact Hs'].
  - vm_compute in Hrun. injection Hrun as <-. vm_compute in Hs'.
    discriminate.
Defined.

Lemma nonmoving_sweep_nothing_filled_witness :
  nonmoving_sweep 3 2 sample_block_count sample_block_bytes
    sample_block_offset true 0 sample_idle_heap = Ok sample_idle_heap.
Proof.
  apply nonmoving_sweep_nothing_filled.
  - reflexivity.
  - simpl. lia.
  - repeat constructor.
Defined.

Lemma push_free_segment_front_witness :
  ∃ h', push_free_segment 1 sample_heap = Ok h' ∧
        chain (segments h') (free h') [1; 5].
Proof.
  destruct (push_free_segment_front 1 sample_heap seg_dead [5])
    as (h' & Hpush & Hchain & _).
  - reflexivity.
  - simpl. split; [reflexivity|]. eexists. split; reflexivity.
  - intros Hin. set_unfold. destruct Hin as [Hin|[]]. discriminate.
  - exists h'. split; [exact Hpush|exact Hchain].
Defined.

Lemma push_active_segment_front_witness :
  ∃ h' alloc', push_active_segment 3 2 sample_heap = Ok h' ∧
    allocators h' !! 0 = Some alloc' ∧
    chain (segments h') (active alloc') [2; 4].
Proof.
  destruct (push_active_segment_front 3 2 sample_heap seg_mixed
              {| filled := Some 1; active := Some 4 |} [4])
    as (h' & alloc' & Hpush & Halloc & Hchain & _).
  - reflexivity.
  - simpl. lia.
  - reflexivity.
  - simpl. split; [reflexivity|]. eexists. split; reflexivity.
  - intros Hin. set_unfold. destruct Hin as [Hin|[]]. discriminate.
  - exists h', alloc'. split; [exact Hpush|]. split; [exact Halloc|exact Hchain].
Defined.

Lemma push_filled_segment_front_witness :
  ∃ h' alloc', push_filled_segment 3 5 sample_heap = Ok h' ∧
    allocators h' !! 0 = Some alloc' ∧
    chain (segments h') (filled alloc') [5; 1; 2].
Proof.
  destruct (push_filled_segment_front 3 5 sample_heap seg_spare
              {| filled := Some 1; active := Some 4 |} [1; 2])
    as (h' & alloc' & Hpush & Halloc & Hchain & _).
  - reflexivity.
  - simpl. lia.
  - reflexivity.
  - simpl. split; [reflexivity|]. eexists. split; [reflexivity|].
    simpl. split; [reflexivity|]. eexists. split; reflexivity.
  - intros Hin. set_unfold. destruct Hin as [Hin|[Hin|[]]]; discriminate.
  - exists h', alloc'. split; [exact Hpush|]. split; [exact Halloc|exact Hchain].
Defined.

Lemma push_free_segment_again_cycles_witness :
  ∃ h', push_free_segment 5 sample_heap = Ok h' ∧
        ∀ l', ¬ chain (segments h') (free h') l'.
Proof.
  apply (push_free_segment_again_cycles 5 sample_heap seg_spare [5]).
  - reflexivity.
  - simpl. split; [reflexivity|]. eexists. split; reflexivity.
  - apply list_elem_of_here.
Defined.

Lemma sweep_step_class_out_of_range_witness :
  sweep_step 3 sample_block_count sample_block_bytes sample_block_offset
    true 2 sample_bare_heap = Undefined.
Proof.
  apply (sweep_step_class_out_of_range 3 sample_block_count
           sample_block_bytes sample_block_offset true 2 sample_bare_heap
           seg_mixed SEGMENT_PARTIAL (set_cursors 1 seg_mixed)).
  - reflexivity.
  - reflexivity.
  - discriminate.
  - simpl. lia.
Defined.

Lemma clear_segment_free_blocks_all_live_witness :
  clear_segment_free_blocks sample_block_count sample_block_bytes
    sample_block_offset seg_full = Ok seg_full.
Proof.
  apply clear_segment_free_blocks_all_live.
  intros i Hi. vm_compute in Hi.
  destruct i as [|[|i]]; [| |lia]; exists 1%Z; split; (reflexivity || lia).
Defined.

Lemma prepare_sweep_cyclic_filled_list_witness :
  prepare_sweep 2 1000 sample_cyclic_heap = OutOfFuel.
Proof.
  apply (prepare_sweep_cyclic_filled_list 2 1000 0 sample_cyclic_heap
           {| filled := Some 1; active := None |} 1 [1; 2]).
  - reflexivity.
  - lia.
  - intros j Hj. lia.
  - reflexivity.
  - reflexivity.
  - apply list_elem_of_here.
  - intros b Hb. set_unfold. destruct Hb as [Hb|[Hb|[]]]; subst b.
    + eexists _, 2. split; [reflexivity|]. split; [reflexivity|]. auto.
    + eexists _, 1. split; [reflexivity|]. split; [reflexivity|]. auto.
Defined.

Lemma nonmoving_sweep_refiles_in_order_witness :
  ∃ h' L',
    nonmoving_sweep 3 2 sample_block_count sample_block_bytes
      sample_block_offset true 3 sample_heap = Ok h' ∧
    represents 2 h' L' ∧ l_free L' = [1; 5] ∧
    l_active L' !!! 0 = [2; 4] ∧ l_filled L' !!! 1 = [3].
Proof.
  destruct (nonmoving_sweep_refiles_in_order 3 2 sample_block_count
              sample_block_bytes sample_block_offset true 3
              sample_heap sample_lists)
    as (h' & L' & Hrun & Hrep & _ & Hfree & Hactive & Hfilled).
  - exact sample_heap_represents.
  - reflexivity.
  - exact sample_filled_sweepable.
  - simpl. lia.
  - exists h', L'. split; [exact Hrun|]. split; [exact Hrep|].
    split; [exact Hfree|]. split.
    + apply (Hactive 0). lia.
    + apply (Hfilled 1). lia.
Defined.


Lemma second_pass_moves_nothing_witness :
  ∃ h1 L1 h2 L2,
    nonmoving_sweep 3 2 sample_block_count sample_block_bytes
      sample_block_offset true 3 sample_heap = Ok h1 ∧
    nonmoving_sweep 3 2 sample_block_count sample_block_bytes
      sample_block_offset true 3 h1 = Ok h2 ∧
    represents 2 h1 L1 ∧ represents 2 h2 L2 ∧ l_free L2 = l_free L1.
Proof.
  destruct (second_pass_moves_nothing 3 2 sample_block_count
              sample_block_bytes sample_block_offset true 3
              sample_heap sample_lists)
    as (h1 & L1 & h2 & L2 & Hrun1 & Hrep1 & Hrun2 & Hrep2 & Hfree & _).
  - exact sample_heap_represents.
  - reflexivity.
  - exact sample_filled_sweepable.
  - simpl. lia.
  - exists h1, L1, h2, L2. auto.
Defined.

Lemma swept_segments_match_their_list_witness :
  ∃ h' L',
    nonmoving_sweep 3 2 sample_block_count sample_block_bytes
      sample_block_offset true 3 sample_heap = Ok h' ∧
    represents 2 h' L' ∧
    ∃ s', segments h' !! 2 = Some s' ∧
      (placed L' 2 (OnActive 0) →
         unmarked s' (next_free s') ∧ next_free_snap s' = next_free s').
Proof.
  destruct (swept_segments_match_their_list 3 2 sample_block_count
              sample_block_bytes sample_block_offset true 3
              sample_heap sample_lists)
    as (h' & L' & Hrun & Hrep & Hall).
  - exact sample_heap_represents.
  - reflexivity.
  - exact sample_filled_sweepable.
  - simpl. lia.
  - exists h', L'. split; [exact Hrun|]. split; [exact Hrep|].
    destruct (Hall 2) as (s' & Hs' & _ & Hact & _).
    + simpl. apply list_elem_of_further, list_elem_of_here.
    + exists s'. split; [exact Hs'|]. intros Hpl.
      destruct (Hact 0 Hpl) as (_ & _ & _ & Hu & _ & Hsn).
      split; [exact Hu|exact Hsn].
Defined.
